(** * suggestionList.js: "did you mean" suggestions

    A shallow embedding of [src/jsutils/suggestionList.js]: the class
    [LexicalDistance] (a case-insensitive edit distance computed over a
    rolling window of three scratch rows) and the function
    [suggestionList] built on it, followed by the properties of both.

    ECMAScript values are modelled as follows.
    - A string is its sequence of UTF-16 code units; [===] on strings is
      equality of these sequences and [.length] their number.
    - The numbers the program manipulates are integers or, when an array
      is read where it holds nothing, [undefined], which [+] and
      [Math.min] turn into [NaN]; both are the constructor [NaN] here.
    - An [Array] assigned past its end grows; the cells skipped are holes.
    - [String.prototype.toLowerCase] and [String.prototype.localeCompare]
      belong to the runtime, not to the file: they are parameters of the
      embedding. *)

From Stdlib Require Import List ZArith NArith QArith Qminmax Bool Lia Arith.
From Stdlib Require Import Ascii String Sorted Permutation.
Import ListNotations.

Local Open Scope Z_scope.

(** ** Strings *)

Definition jsstring := list N.

Fixpoint str_eqb (s t : jsstring) : bool :=
  match s, t with
  | [], [] => true
  | c :: s', d :: t' => N.eqb c d && str_eqb s' t'
  | _, _ => false
  end.

(** [s[i]]: the code unit at index [i], [None] for [undefined]. *)
Definition charAt (s : jsstring) (i : nat) : option N := nth_error s i.

(** [s[i] === t[j]] *)
Definition unit_eqb (x y : option N) : bool :=
  match x, y with
  | Some c, Some d => N.eqb c d
  | None, None => true
  | _, _ => false
  end.

(** Literals: the code units of an ASCII string. *)
Definition js (s : string) : jsstring :=
  map N_of_ascii (list_ascii_of_string s).

(** ** Numbers *)

Inductive number : Type :=
| Num (z : Z)
| NaN.

(** [x + k] for an integer constant [k] *)
Definition nadd (x : number) (k : Z) : number :=
  match x with Num z => Num (z + k) | NaN => NaN end.

(** [x - y] *)
Definition nsub (x y : number) : number :=
  match x, y with Num a, Num b => Num (a - b) | _, _ => NaN end.

(** [Math.min(x, y)]: [NaN] as soon as one argument is. *)
Definition nmin (x y : number) : number :=
  match x, y with Num a, Num b => Num (Z.min a b) | _, _ => NaN end.

(** [x <= q] against a fractional bound: false on [NaN]. *)
Definition nleq (x : number) (q : Q) : bool :=
  match x with Num z => Qle_bool (inject_Z z) q | NaN => false end.

(** ** Arrays of numbers *)

Definition array := list number.

(** [new Array(n).fill(0)] *)
Definition Array_fill0 (n : nat) : array := repeat (Num 0) n.

(** [arr[j]] in an arithmetic context *)
Definition aget (arr : array) (j : nat) : number := nth j arr NaN.

(** [arr[j] = v] *)
Fixpoint aset (arr : array) (j : nat) (v : number) : array :=
  match j, arr with
  | O, [] => [v]
  | O, _ :: rest => v :: rest
  | S j', [] => NaN :: aset [] j' v
  | S j', x :: rest => x :: aset rest j' v
  end.

(** ** Loops

    [for (let k = lo; k < lo + count; k++) body], on an explicit state. *)
Fixpoint for_range {St : Type} (lo count : nat) (body : nat -> St -> St)
    (s : St) : St :=
  match count with
  | O => s
  | S count' => for_range (S lo) count' body (body lo s)
  end.

(** ** The three scratch rows *)

Record Rows : Type := mkRows { row0 : array; row1 : array; row2 : array }.

(** [rows[k]] for [k] in 0..2 *)
Definition row (rs : Rows) (k : nat) : array :=
  match k with
  | 0%nat => row0 rs
  | 1%nat => row1 rs
  | _ => row2 rs
  end.

Definition set_row (rs : Rows) (k : nat) (r : array) : Rows :=
  match k with
  | 0%nat => mkRows r (row1 rs) (row2 rs)
  | 1%nat => mkRows (row0 rs) r (row2 rs)
  | _ => mkRows (row0 rs) (row1 rs) r
  end.

(** [rows[k][j]] *)
Definition rd (rs : Rows) (k j : nat) : number := aget (row rs k) j.

(** [rows[k][j] = v] *)
Definition wr (rs : Rows) (k j : nat) (v : number) : Rows :=
  set_row rs k (aset (row rs k) j v).

(** ** class LexicalDistance *)

Record LexicalDistance : Type := mkLexicalDistance {
  _input : jsstring;
  _inputLowerCase : jsstring;
  _rows : Rows
}.

Section Engine.

Variable toLowerCase : jsstring -> jsstring.

(** [constructor(input)] *)
Definition new_LexicalDistance (input : jsstring) : LexicalDistance :=
  {| _input := input;
     _inputLowerCase := toLowerCase input;
     _rows := mkRows (Array_fill0 (List.length input + 1))
                     (Array_fill0 (List.length input + 1))
                     (Array_fill0 (List.length input + 1)) |}.

(** The body of the inner [for (let j = 1; j <= bLength; j++)]. *)
Definition measure_cell (a b : jsstring) (i j : nat) (rows : Rows) : Rows :=
  let up := ((i - 1) mod 3)%nat in
  let cur := (i mod 3)%nat in
  let cost := if unit_eqb (charAt a (i - 1)) (charAt b (j - 1)) then 0 else 1 in
  let currentCell :=
    nmin (nmin (nadd (rd rows up j) 1)            (* delete *)
               (nadd (rd rows cur (j - 1)) 1))    (* insert *)
         (nadd (rd rows up (j - 1)) cost) in      (* substitute *)
  let currentCell :=
    if (1 <? i)%nat && (1 <? j)%nat
       && unit_eqb (charAt a (i - 1)) (charAt b (j - 2))
       && unit_eqb (charAt a (i - 2)) (charAt b (j - 1))
    then (* transposition *)
      let doubleDiagonalCell := rd rows ((i - 2) mod 3)%nat (j - 2) in
      nmin currentCell (nadd doubleDiagonalCell 1)
    else currentCell in
  wr rows cur j currentCell.

(** The body of the outer [for (let i = 1; i <= aLength; i++)]. *)
Definition measure_row (a b : jsstring) (i : nat) (rows : Rows) : Rows :=
  let rows := wr rows (i mod 3)%nat 0 (Num (Z.of_nat i)) in
  for_range 1 (List.length b) (measure_cell a b i) rows.

(** The dynamic program of [measure], from line 75 on. *)
Definition measure_rows (a b : jsstring) (rows : Rows) : Rows :=
  let rows :=
    for_range 0 (List.length b + 1)
      (fun j rows => wr rows 0 j (Num (Z.of_nat j))) rows in
  for_range 1 (List.length a) (measure_row a b) rows.

(** [measure(option)]: the value returned and the engine afterwards. *)
Definition measure (this : LexicalDistance) (option : jsstring)
  : number * LexicalDistance :=
  if str_eqb (_input this) option then (Num 0, this)
  else
    let optionLowerCase := toLowerCase option in
    (* Any case change counts as a single edit *)
    if str_eqb (_inputLowerCase this) optionLowerCase then (Num 1, this)
    else
      let a := optionLowerCase in
      let b := _inputLowerCase this in
      let aLength := List.length a in
      let bLength := List.length b in
      let rows := measure_rows a b (_rows this) in
      (rd rows (aLength mod 3)%nat bLength,
       {| _input := _input this;
          _inputLowerCase := _inputLowerCase this;
          _rows := rows |}).

End Engine.

(** A lower-casing that agrees with [toLowerCase] on strings made of ASCII
    code units and of U+0130 (LATIN CAPITAL LETTER I WITH DOT ABOVE, whose
    lower case is the two units U+0069 U+0307); it is applied to no other
    string below. *)
Definition lowerUnit (c : N) : jsstring :=
  if (65 <=? c)%N && (c <=? 90)%N then [(c + 32)%N]
  else if (c =? 304)%N then [105%N; 775%N]
  else [c].

Definition toLowerCaseBasic (s : jsstring) : jsstring := flat_map lowerUnit s.


(** ** The recurrence the rows hold

    [cell a b i j] is the value the dynamic program assigns to row [i],
    column [j] of its virtual matrix: the same three-way minimum and the
    same transposition test as [measure_cell], on unbounded rows. *)

Section Recurrence.

Variables a b : jsstring.

Definition cost (i j : nat) : Z :=
  if unit_eqb (charAt a (i - 1)) (charAt b (j - 1)) then 0 else 1.

Definition transposed (i j : nat) : bool :=
  (1 <? i)%nat && (1 <? j)%nat
  && unit_eqb (charAt a (i - 1)) (charAt b (j - 2))
  && unit_eqb (charAt a (i - 2)) (charAt b (j - 1)).

Fixpoint cell (i : nat) : nat -> Z :=
  match i with
  | O => fun j => Z.of_nat j
  | S i' =>
      fix cell_i (j : nat) : Z :=
        match j with
        | O => Z.of_nat (S i')
        | S j' =>
            let c := Z.min (Z.min (cell i' (S j') + 1) (cell_i j' + 1))
                           (cell i' j' + cost (S i') (S j')) in
            if transposed (S i') (S j') then
              match i', j' with
              | S i'', S j'' => Z.min c (cell i'' j'' + 1)
              | _, _ => c
              end
            else c
        end
  end.

End Recurrence.

(** The distance [measure] is meant to return, as a function of the two
    strings alone. *)
Definition distance (toLowerCase : jsstring -> jsstring)
    (input opt : jsstring) : Z :=
  if str_eqb input opt then 0
  else if str_eqb (toLowerCase input) (toLowerCase opt) then 1
  else cell (toLowerCase opt) (toLowerCase input)
            (List.length (toLowerCase opt)) (List.length (toLowerCase input)).

(** Plain Levenshtein distance, for comparison: the recurrence of [cell]
    without its transposition case. *)
Fixpoint lev_cell (a b : jsstring) (i : nat) : nat -> Z :=
  match i with
  | O => fun j => Z.of_nat j
  | S i' =>
      fix lev_i (j : nat) : Z :=
        match j with
        | O => Z.of_nat (S i')
        | S j' =>
            Z.min (Z.min (lev_cell a b i' (S j') + 1) (lev_i j' + 1))
                  (lev_cell a b i' j' + cost a b (S i') (S j'))
        end
  end.

Definition levenshtein (a b : jsstring) : Z :=
  lev_cell a b (List.length a) (List.length b).

(** ** Edits

    One edit, as the comment above [class LexicalDistance] lists them:
    "an insertion, deletion, or substitution of a single character, or a
    swap of two adjacent characters". *)
Inductive edit : jsstring -> jsstring -> Prop :=
| edit_insert (p : jsstring) (c : N) (s : jsstring) :
    edit (p ++ s) (p ++ c :: s)
| edit_delete (p : jsstring) (c : N) (s : jsstring) :
    edit (p ++ c :: s) (p ++ s)
| edit_substitute (p : jsstring) (c c' : N) (s : jsstring) :
    edit (p ++ c :: s) (p ++ c' :: s)
| edit_swap (p : jsstring) (c c' : N) (s : jsstring) :
    edit (p ++ c :: c' :: s) (p ++ c' :: c :: s).

(** [edits n s t]: [n] edits in a row transform [s] into [t]. *)
Inductive edits : nat -> jsstring -> jsstring -> Prop :=
| edits_done (s : jsstring) : edits 0 s s
| edits_step (n : nat) (s t u : jsstring) :
    edit s t -> edits n t u -> edits (S n) s u.

(** ** Objects used as maps from strings to numbers

    The own properties of an object made by [Object.create(null)], in the
    order of their creation. *)
Definition object := list (jsstring * number).

Definition Object_create_null : object := [].

(** [obj[k] = v]: an existing property keeps its place. *)
Fixpoint obj_set (obj : object) (k : jsstring) (v : number) : object :=
  match obj with
  | [] => [(k, v)]
  | (k', v') :: rest =>
      if str_eqb k' k then (k', v) :: rest else (k', v') :: obj_set rest k v
  end.

(** [obj[k]], [undefined] (here [NaN]) when there is no such property. *)
Fixpoint obj_get (obj : object) (k : jsstring) : number :=
  match obj with
  | [] => NaN
  | (k', v') :: rest => if str_eqb k' k then v' else obj_get rest k
  end.

(** Array indices: the canonical decimal numerals of 0 .. 2^32 - 2. *)
Definition is_digit (c : N) : bool := ((48 <=? c) && (c <=? 57))%N.

Definition digits_value (s : jsstring) : N :=
  fold_left (fun acc c => (acc * 10 + (c - 48))%N) s 0%N.

Definition array_index (s : jsstring) : option N :=
  match s with
  | [] => None
  | c :: rest =>
      if forallb is_digit s
         && (negb (c =? 48)%N || match rest with [] => true | _ => false end)
         && (digits_value s <? 4294967295)%N
      then Some (digits_value s)
      else None
  end.

Definition is_array_index (s : jsstring) : bool :=
  match array_index s with Some _ => true | None => false end.

Definition index_value (s : jsstring) : N :=
  match array_index s with Some n => n | None => 0%N end.

Fixpoint index_insert (x : jsstring) (l : list jsstring) : list jsstring :=
  match l with
  | [] => [x]
  | y :: l' =>
      if (index_value x <=? index_value y)%N then x :: l
      else y :: index_insert x l'
  end.

(** [Object.keys(obj)]: the array-index keys in ascending numeric order,
    then the other keys in the order of their creation. *)
Definition Object_keys (obj : object) : list jsstring :=
  let keys := map fst obj in
  fold_right index_insert [] (filter is_array_index keys)
  ++ filter (fun k => negb (is_array_index k)) keys.

(** ** Array.prototype.sort

    The sort is stable and, for a consistent comparator, yields the one
    sorted stable arrangement; an insertion sort computes it.  A comparator
    value of [NaN] counts as [+0]. *)
Definition not_after (v : number) : bool :=
  match v with Num z => z <=? 0 | NaN => true end.

Fixpoint sort_insert (comparefn : jsstring -> jsstring -> number)
    (x : jsstring) (l : list jsstring) : list jsstring :=
  match l with
  | [] => [x]
  | y :: l' =>
      if not_after (comparefn x y) then x :: l
      else y :: sort_insert comparefn x l'
  end.

Definition Array_sort (comparefn : jsstring -> jsstring -> number)
    (l : list jsstring) : list jsstring :=
  fold_right (sort_insert comparefn) [] l.

(** ** function suggestionList *)

(** [n / 2], not truncated *)
Definition half (n : nat) : Q := Z.of_nat n # 2.

(** [Math.max(x, y, 1)] *)
Definition Math_max3 (x y z : Q) : Q := Qmax (Qmax x y) z.

Section Ranker.

Variable toLowerCase : jsstring -> jsstring.
Variable localeCompare : jsstring -> jsstring -> Z.

(** The body of [for (const option of options)], on the pair of the
    object and the engine it updates. *)
Definition suggest_step (input : jsstring)
    (st : object * LexicalDistance) (option : jsstring)
  : object * LexicalDistance :=
  let '(optionsByDistance, lexicalDistance) := st in
  let inputThreshold := half (List.length input) in
  let '(distance, lexicalDistance) := measure toLowerCase lexicalDistance option in
  let threshold := Math_max3 inputThreshold (half (List.length option)) 1 in
  if nleq distance threshold
  then (obj_set optionsByDistance option distance, lexicalDistance)
  else (optionsByDistance, lexicalDistance).

(** The state when the loop over [options] is left. *)
Definition suggest_loop (input : jsstring) (options : list jsstring)
  : object * LexicalDistance :=
  fold_left (suggest_step input) options
    (Object_create_null, new_LexicalDistance toLowerCase input).

(** The comparator handed to [sort]. *)
Definition compareFn (optionsByDistance : object) (a b : jsstring) : number :=
  let distanceDiff := nsub (obj_get optionsByDistance a)
                           (obj_get optionsByDistance b) in
  match distanceDiff with
  | Num 0 => Num (localeCompare a b)
  | _ => distanceDiff
  end.

Definition suggestionList (input : jsstring) (options : list jsstring)
  : list jsstring :=
  let optionsByDistance := fst (suggest_loop input options) in
  Array_sort (compareFn optionsByDistance) (Object_keys optionsByDistance).

(** The distance [measure] reports for [option] on an engine just built
    for [input]. *)
Definition measured (input option : jsstring) : number :=
  fst (measure toLowerCase (new_LexicalDistance toLowerCase input) option).

(** The cut-off of line 17. *)
Definition threshold (input option : jsstring) : Q :=
  Math_max3 (half (List.length input)) (half (List.length option)) 1.

(** The order the result is meant to have: by distance, then by
    [localeCompare] among equal distances. *)
Definition ranked_before (input x y : jsstring) : Prop :=
  exists dx dy,
    measured input x = Num dx /\ measured input y = Num dy /\
    (dx < dy \/ (dx = dy /\ localeCompare x y <= 0)).

(** Successive [measure] calls on one engine: the values returned, and
    the engine left behind. *)
Fixpoint measure_all (this : LexicalDistance) (options : list jsstring)
  : list number * LexicalDistance :=
  match options with
  | [] => ([], this)
  | o :: rest =>
      let '(d, this') := measure toLowerCase this o in
      let '(ds, this'') := measure_all this' rest in
      (d :: ds, this'')
  end.

End Ranker.

(** A stand-in for [localeCompare] where a concrete collation is needed:
    the order of the code units. *)
Definition compareUnits (s t : jsstring) : Z :=
  match list_compare N.compare s t with
  | Lt => -1
  | Eq => 0
  | Gt => 1
  end.

(** ** Names for what the proofs maintain *)

(** Row [i] of the matrix of [a] against [b] sits in [rows[i % 3]],
    columns 0..[b.length]. *)
Definition row_holds (a b : jsstring) (rows : Rows) (i : nat) : Prop :=
  forall j, (j <= List.length b)%nat ->
    rd rows (i mod 3) j = Num (cell a b i j).

(** What the outer loop maintains: the last two rows are in place. *)
Definition rows_hold (a b : jsstring) (rows : Rows) (i : nat) : Prop :=
  row_holds a b rows i /\ (forall i', i = S i' -> row_holds a b rows i').

(** An engine as the constructor leaves it, up to the contents of its rows. *)
Definition bound_to (toLowerCase : jsstring -> jsstring)
    (this : LexicalDistance) (input : jsstring) : Prop :=
  _input this = input /\ _inputLowerCase this = toLowerCase input.

(** The test of line 18, on the distance as a function of the strings. *)
Definition passes (toLowerCase : jsstring -> jsstring)
    (input o : jsstring) : bool :=
  nleq (Num (distance toLowerCase input o)) (threshold input o).

(** One turn of the loop, on the object alone. *)
Definition record_step (toLowerCase : jsstring -> jsstring)
    (input : jsstring) (obj : object) (o : jsstring) : object :=
  if passes toLowerCase input o
  then obj_set obj o (Num (distance toLowerCase input o))
  else obj.

(** ** The state of the scratch rows *)

Definition is_number (v : number) : Prop := exists z, v = Num z.

(** An array without holes whose cells all hold numbers. *)
Definition dense (arr : array) : Prop := Forall is_number arr.

(** The three rows are dense and at least [n] cells long. *)
Definition rows_ready (n : nat) (rs : Rows) : Prop :=
  forall k, (k < 3)%nat ->
    dense (row rs k) /\ (n <= List.length (row rs k))%nat.

(** ** The program with its exceptions

    The same program once more, this time with the one way a statement of
    the file can raise: reading or writing a property of [undefined],
    which is what [rows[k]] is unless [k] is 0, 1 or 2.  Indices are the
    integers the source computes ([%] keeps the sign of its left operand,
    [s[k]] and [arr[k]] are [undefined] for a negative [k]); [upRow] and
    [currentRow] are references into [rows], read when they are used.
    The string methods are called on strings only and the comparator of
    [sort] is a function, so these calls do not raise.  The constructor is
    the one above: [new Array(n)] raises only for [n] above 2^32 - 1,
    more than [input.length + 1] can be for a string an engine holds. *)

Inductive exception : Type := TypeError.

Inductive completion (A : Type) : Type :=
| Normal (a : A)
| Throw (e : exception).

Arguments Normal {A} a.
Arguments Throw {A} e.

Definition bind {A B : Type} (c : completion A) (k : A -> completion B)
  : completion B :=
  match c with
  | Normal a => k a
  | Throw e => Throw e
  end.

Notation "x <- c ;; k" := (bind c (fun x => k))
  (at level 61, c at next level, right associativity).

(** [for (let k = lo; k < lo + count; k++) body], left at the first
    exception. *)
Fixpoint for_range_c {St : Type} (lo count : nat)
    (body : nat -> St -> completion St) (s : St) : completion St :=
  match count with
  | O => Normal s
  | S count' => s' <- body lo s ;; for_range_c (S lo) count' body s'
  end.

(** [for (const x of xs) body], left at the first exception. *)
Fixpoint for_of_c {St : Type} (body : St -> jsstring -> completion St)
    (xs : list jsstring) (s : St) : completion St :=
  match xs with
  | [] => Normal s
  | x :: rest => s' <- body s x ;; for_of_c body rest s'
  end.

(** [s[k]] for an integer [k] *)
Definition charAtZ (s : jsstring) (k : Z) : option N :=
  if k <? 0 then None else charAt s (Z.to_nat k).

(** A reference to one of the three rows, or [undefined]. *)
Definition row_ref := option nat.

(** [rows[k]] for an integer [k] *)
Definition rows_at (k : Z) : row_ref :=
  match k with
  | 0 => Some 0%nat
  | 1 => Some 1%nat
  | 2 => Some 2%nat
  | _ => None
  end.

(** [r[j]] through the reference [r], in an arithmetic context *)
Definition ref_get (rows : Rows) (r : row_ref) (j : Z) : completion number :=
  match r with
  | None => Throw TypeError
  | Some k => Normal (if j <? 0 then NaN else rd rows k (Z.to_nat j))
  end.

(** [r[j] = v] through the reference [r], for a loop counter [j] *)
Definition ref_set (rows : Rows) (r : row_ref) (j : nat) (v : number)
  : completion Rows :=
  match r with
  | None => Throw TypeError
  | Some k => Normal (wr rows k j v)
  end.

Module Checked.

Section Program.

Variable toLowerCase : jsstring -> jsstring.
Variable localeCompare : jsstring -> jsstring -> Z.

(** Lines 86-100. *)
Definition measure_cell (a b : jsstring) (upRow currentRow : row_ref)
    (i j : nat) (rows : Rows) : completion Rows :=
  let iz := Z.of_nat i in
  let jz := Z.of_nat j in
  let cost :=
    if unit_eqb (charAtZ a (iz - 1)) (charAtZ b (jz - 1)) then 0 else 1 in
  up <- ref_get rows upRow jz ;;
  left <- ref_get rows currentRow (jz - 1) ;;
  diagonal <- ref_get rows upRow (jz - 1) ;;
  let currentCell :=
    nmin (nmin (nadd up 1) (nadd left 1)) (nadd diagonal cost) in
  currentCell <-
    (if (1 <? iz) && (1 <? jz)
        && unit_eqb (charAtZ a (iz - 1)) (charAtZ b (jz - 2))
        && unit_eqb (charAtZ a (iz - 2)) (charAtZ b (jz - 1))
     then
       doubleDiagonalCell <-
         ref_get rows (rows_at (Z.rem (iz - 2) 3)) (jz - 2) ;;
       Normal (nmin currentCell (nadd doubleDiagonalCell 1))
     else Normal currentCell) ;;
  ref_set rows currentRow j currentCell.

(** Lines 81-101. *)
Definition measure_row (a b : jsstring) (i : nat) (rows : Rows)
  : completion Rows :=
  let iz := Z.of_nat i in
  let upRow := rows_at (Z.rem (iz - 1) 3) in
  let currentRow := rows_at (Z.rem iz 3) in
  rows <- ref_set rows currentRow 0 (Num iz) ;;
  for_range_c 1 (List.length b) (measure_cell a b upRow currentRow i) rows.

(** Lines 75-102. *)
Definition measure_rows (a b : jsstring) (rows : Rows) : completion Rows :=
  rows <- for_range_c 0 (List.length b + 1)
            (fun j rows => ref_set rows (rows_at 0) j (Num (Z.of_nat j)))
            rows ;;
  for_range_c 1 (List.length a) (measure_row a b) rows.

(** [measure(option)] *)
Definition measure (this : LexicalDistance) (option : jsstring)
  : completion (number * LexicalDistance) :=
  if str_eqb (_input this) option then Normal (Num 0, this)
  else
    let optionLowerCase := toLowerCase option in
    if str_eqb (_inputLowerCase this) optionLowerCase
    then Normal (Num 1, this)
    else
      let a := optionLowerCase in
      let b := _inputLowerCase this in
      let aLength := List.length a in
      let bLength := List.length b in
      rows <- measure_rows a b (_rows this) ;;
      result <- ref_get rows (rows_at (Z.rem (Z.of_nat aLength) 3))
                  (Z.of_nat bLength) ;;
      Normal (result,
              {| _input := _input this;
                 _inputLowerCase := _inputLowerCase this;
                 _rows := rows |}).

(** Lines 16-20. *)
Definition suggest_step (input : jsstring)
    (st : object * LexicalDistance) (option : jsstring)
  : completion (object * LexicalDistance) :=
  let '(optionsByDistance, lexicalDistance) := st in
  let inputThreshold := half (List.length input) in
  r <- measure lexicalDistance option ;;
  let '(distance, lexicalDistance) := r in
  let threshold := Math_max3 inputThreshold (half (List.length option)) 1 in
  if nleq distance threshold
  then Normal (obj_set optionsByDistance option distance, lexicalDistance)
  else Normal (optionsByDistance, lexicalDistance).

(** [suggestionList(input, options)]: the list returned, or the
    exception raised. *)
Definition suggestionList (input : jsstring) (options : list jsstring)
  : completion (list jsstring) :=
  st <- for_of_c (suggest_step input) options
          (Object_create_null, new_LexicalDistance toLowerCase input) ;;
  let optionsByDistance := fst st in
  Normal (Array_sort (compareFn localeCompare optionsByDistance)
            (Object_keys optionsByDistance)).

End Program.

End Checked.

(** * Properties *)

(** ** Strings, arrays and rows *)

Lemma str_eqb_eq (s t : jsstring) : str_eqb s t = true <-> s = t.
Proof.
  revert t; induction s as [|c s IH]; intros [|d t]; simpl;
    try (split; [discriminate | congruence]); try tauto.
  rewrite andb_true_iff, N.eqb_eq, IH.
  split; [intros [-> ->]; reflexivity | intros [= -> ->]; auto].
Qed.

Lemma str_eqb_refl (s : jsstring) : str_eqb s s = true.
Proof. apply str_eqb_eq; reflexivity. Qed.

Lemma str_eqb_neq (s t : jsstring) : str_eqb s t = false <-> s <> t.
Proof.
  rewrite <- str_eqb_eq. destruct (str_eqb s t); split; congruence.
Qed.

Lemma unit_eqb_eq (x y : option N) : unit_eqb x y = true <-> x = y.
Proof.
  destruct x, y; simpl; rewrite ?N.eqb_eq;
    split; congruence.
Qed.

Lemma unit_eqb_sym (x y : option N) : unit_eqb x y = unit_eqb y x.
Proof. destruct x, y; simpl; auto using N.eqb_sym. Qed.

Lemma aget_aset_same (arr : array) (j : nat) (v : number) :
  aget (aset arr j v) j = v.
Proof.
  unfold aget. revert arr; induction j as [|j IH]; intros [|x arr]; simpl; auto.
Qed.

Lemma aget_aset_other (arr : array) (j j' : nat) (v : number) :
  j <> j' -> aget (aset arr j v) j' = aget arr j'.
Proof.
  unfold aget. revert arr j'.
  induction j as [|j IH]; intros [|x arr] [|j'] Hne; simpl; auto;
    try congruence.
  - destruct j'; reflexivity.
  - rewrite IH by congruence. destruct j'; reflexivity.
Qed.

Lemma rd_wr_same (rs : Rows) (k j : nat) (v : number) :
  rd (wr rs k j v) k j = v.
Proof.
  unfold rd, wr, set_row, row.
  destruct k as [|[|k]]; simpl; apply aget_aset_same.
Qed.

Lemma rd_wr_other_row (rs : Rows) (k k' j j' : nat) (v : number) :
  (k < 3)%nat -> (k' < 3)%nat -> k <> k' ->
  rd (wr rs k j v) k' j' = rd rs k' j'.
Proof.
  unfold rd, wr, set_row, row. intros Hk Hk' Hne.
  destruct k as [|[|[|k]]], k' as [|[|[|k']]]; simpl; try lia; reflexivity.
Qed.

Lemma rd_wr_other_cell (rs : Rows) (k j j' : nat) (v : number) :
  j <> j' -> rd (wr rs k j v) k j' = rd rs k j'.
Proof.
  unfold rd, wr, set_row, row. intros Hne.
  destruct k as [|[|k]]; simpl; apply aget_aset_other; assumption.
Qed.

(** The invariant rule of [for_range]. *)
Lemma for_range_ind {St : Type} (P : nat -> St -> Prop)
    (body : nat -> St -> St) (count lo : nat) (s : St) :
  P lo s ->
  (forall k s', (lo <= k < lo + count)%nat -> P k s' -> P (S k) (body k s')) ->
  P (lo + count)%nat (for_range lo count body s).
Proof.
  revert lo s; induction count as [|count IH]; intros lo s H0 Hstep; simpl.
  - rewrite Nat.add_0_r; assumption.
  - replace (lo + S count)%nat with (S lo + count)%nat by lia.
    apply IH.
    + apply Hstep; [lia | assumption].
    + intros k s' Hk; apply Hstep; lia.
Qed.

(** ** The recurrence, unfolded *)

Section RecurrenceFacts.

Variables a b : jsstring.

Lemma cell_0_l (j : nat) : cell a b 0 j = Z.of_nat j.
Proof. reflexivity. Qed.

Lemma cell_0_r (i : nat) : cell a b i 0 = Z.of_nat i.
Proof. destruct i; reflexivity. Qed.

Lemma transposed_pos (i j : nat) :
  transposed a b i j = true -> (1 < i)%nat /\ (1 < j)%nat.
Proof.
  unfold transposed. rewrite !andb_true_iff, !Nat.ltb_lt. tauto.
Qed.

Lemma cell_S_S_match (i j : nat) :
  cell a b (S i) (S j) =
  let c := Z.min (Z.min (cell a b i (S j) + 1) (cell a b (S i) j + 1))
                 (cell a b i j + cost a b (S i) (S j)) in
  if transposed a b (S i) (S j)
  then match i, j with
       | S i'', S j'' => Z.min c (cell a b i'' j'' + 1)
       | _, _ => c
       end
  else c.
Proof. reflexivity. Qed.

Lemma cell_S_S (i j : nat) :
  cell a b (S i) (S j) =
  let c := Z.min (Z.min (cell a b i (S j) + 1) (cell a b (S i) j + 1))
                 (cell a b i j + cost a b (S i) (S j)) in
  if transposed a b (S i) (S j)
  then Z.min c (cell a b (i - 1) (j - 1) + 1)
  else c.
Proof.
  rewrite cell_S_S_match. cbv zeta.
  destruct (transposed a b (S i) (S j)) eqn:Ht; [|reflexivity].
  apply transposed_pos in Ht.
  destruct i as [|i]; [lia|]. destruct j as [|j]; [lia|].
  replace (S i - 1)%nat with i by lia. replace (S j - 1)%nat with j by lia.
  reflexivity.
Qed.

End RecurrenceFacts.

(** ** The rolling rows compute the recurrence *)

Lemma mod3_lt (i : nat) : (i mod 3 < 3)%nat.
Proof. apply Nat.mod_upper_bound; discriminate. Qed.

Lemma mod3_succ (i : nat) : (S i mod 3 <> i mod 3)%nat.
Proof.
  pose proof (Nat.div_mod_eq i 3). pose proof (Nat.div_mod_eq (S i) 3).
  pose proof (mod3_lt i). pose proof (mod3_lt (S i)). lia.
Qed.

Lemma mod3_succ2 (i : nat) : (S (S i) mod 3 <> i mod 3)%nat.
Proof.
  pose proof (Nat.div_mod_eq i 3). pose proof (Nat.div_mod_eq (S (S i)) 3).
  pose proof (mod3_lt i). pose proof (mod3_lt (S (S i))). lia.
Qed.

Section Refinement.

Variables a b : jsstring.

Lemma measure_cell_value (i j : nat) (rows : Rows) :
  row_holds a b rows i ->
  (forall i', i = S i' -> row_holds a b rows i') ->
  (S j <= List.length b)%nat ->
  rd rows (S i mod 3) j = Num (cell a b (S i) j) ->
  rd (measure_cell a b (S i) (S j) rows) (S i mod 3) (S j)
  = Num (cell a b (S i) (S j)).
Proof.
  intros Hup Hdd Hj Hleft.
  unfold measure_cell. rewrite rd_wr_same.
  fold (cost a b (S i) (S j)). fold (transposed a b (S i) (S j)).
  replace (S i - 1)%nat with i by lia. replace (S j - 1)%nat with j by lia.
  rewrite (Hup (S j)) by lia. rewrite (Hup j) by lia. rewrite Hleft.
  rewrite cell_S_S. cbv zeta. cbn [nadd nmin].
  destruct (transposed a b (S i) (S j)) eqn:Ht; [|reflexivity].
  apply transposed_pos in Ht.
  destruct i as [|i']; [lia|]. destruct j as [|j']; [lia|].
  replace (S (S i') - 2)%nat with i' by lia.
  replace (S (S j') - 2)%nat with j' by lia.
  rewrite (Hdd i' eq_refl j') by lia.
  replace (S i' - 1)%nat with i' by lia. replace (S j' - 1)%nat with j' by lia.
  reflexivity.
Qed.

Lemma measure_cell_frame (i j : nat) (rows : Rows) (k j' : nat) :
  (k < 3)%nat -> (k <> S i mod 3 \/ j' <> S j)%nat ->
  rd (measure_cell a b (S i) (S j) rows) k j' = rd rows k j'.
Proof.
  intros Hk Hne. unfold measure_cell.
  destruct (Nat.eq_dec k (S i mod 3)) as [->|Hrow].
  - apply rd_wr_other_cell. destruct Hne; congruence.
  - apply rd_wr_other_row; auto using mod3_lt.
Qed.

Lemma measure_row_holds (i : nat) (rows : Rows) :
  rows_hold a b rows i -> rows_hold a b (measure_row a b (S i) rows) (S i).
Proof.
  intros [Hup Hdd]. unfold measure_row.
  set (rows0 := wr rows (S i mod 3) 0 (Num (Z.of_nat (S i)))).
  pose (P := fun (k : nat) (s : Rows) =>
    row_holds a b s i /\ (forall i', i = S i' -> row_holds a b s i') /\
    forall j, (j < k)%nat -> rd s (S i mod 3) j = Num (cell a b (S i) j)).
  assert (HP : P (1 + List.length b)%nat
                 (for_range 1 (List.length b) (measure_cell a b (S i)) rows0)).
  { apply for_range_ind.
    - repeat split.
      + intros j Hj. unfold rows0.
        rewrite rd_wr_other_row; auto using mod3_lt, mod3_succ.
      + intros i' -> j Hj. unfold rows0.
        rewrite rd_wr_other_row; auto using mod3_lt, mod3_succ2.
        apply Hdd; auto.
      + intros j Hj. assert (j = 0%nat) as -> by lia.
        unfold rows0. rewrite rd_wr_same, cell_0_r. reflexivity.
    - intros k s [Hk1 Hk2] (Hup' & Hdd' & Hcur).
      destruct k as [|j]; [lia|].
      repeat split.
      + intros j' Hj'.
        rewrite measure_cell_frame;
          [apply Hup'; assumption | apply mod3_lt |].
        left. intros E. symmetry in E. revert E. apply mod3_succ.
      + intros i' -> j' Hj'.
        rewrite measure_cell_frame;
          [apply (Hdd' i' eq_refl); assumption | apply mod3_lt |].
        left. intros E. symmetry in E. revert E. apply mod3_succ2.
      + intros j' Hj'. destruct (Nat.eq_dec j' (S j)) as [->|Hne].
        * apply measure_cell_value;
            [assumption | assumption | lia | apply Hcur; lia].
        * rewrite measure_cell_frame;
            [apply Hcur; lia | apply mod3_lt | right; assumption]. }
  destruct HP as (Hup' & _ & Hcur). split.
  - intros j Hj. apply Hcur; lia.
  - intros i' [= <-]. exact Hup'.
Qed.

Lemma first_row_holds (rows : Rows) :
  rows_hold a b
    (for_range 0 (List.length b + 1)
       (fun j rows => wr rows 0 j (Num (Z.of_nat j))) rows) 0.
Proof.
  split; [|discriminate].
  pose (P := fun (k : nat) (s : Rows) =>
    forall j, (j < k)%nat -> rd s 0 j = Num (Z.of_nat j)).
  assert (HP : P (0 + (List.length b + 1))%nat
    (for_range 0 (List.length b + 1)
       (fun j rows => wr rows 0 j (Num (Z.of_nat j))) rows)).
  { apply for_range_ind.
    - intros j Hj; lia.
    - intros k s _ Hs j Hj. destruct (Nat.eq_dec j k) as [->|Hne].
      + apply rd_wr_same.
      + rewrite rd_wr_other_cell by congruence. apply Hs; lia. }
  intros j Hj. change (0 mod 3)%nat with 0%nat. rewrite cell_0_l.
  apply HP; lia.
Qed.

(** Whatever the rows held before, the dynamic program leaves the last
    row of the matrix in [rows[a.length % 3]]. *)
Lemma measure_rows_holds (rows : Rows) :
  rows_hold a b (measure_rows a b rows) (List.length a).
Proof.
  unfold measure_rows.
  pose (P := fun (k : nat) (s : Rows) => rows_hold a b s (k - 1)).
  assert (HP : P (1 + List.length a)%nat
    (for_range 1 (List.length a) (measure_row a b)
       (for_range 0 (List.length b + 1)
          (fun j rows => wr rows 0 j (Num (Z.of_nat j))) rows))).
  { apply for_range_ind.
    - apply first_row_holds.
    - intros k s Hk Hs. unfold P in *. destruct k as [|k]; [lia|].
      replace (S (S k) - 1)%nat with (S k) by lia.
      replace (S k - 1)%nat with k in Hs by lia.
      apply measure_row_holds; assumption. }
  unfold P in HP.
  replace (1 + List.length a - 1)%nat with (List.length a) in HP by lia.
  exact HP.
Qed.

Lemma measure_rows_result (rows : Rows) :
  rd (measure_rows a b rows) (List.length a mod 3) (List.length b)
  = Num (cell a b (List.length a) (List.length b)).
Proof. destruct (measure_rows_holds rows) as [H _]. apply H. lia. Qed.

End Refinement.

(** ** [measure] as a function of the two strings *)

Section EngineFacts.

Variable toLowerCase : jsstring -> jsstring.

Lemma new_bound_to (input : jsstring) :
  bound_to toLowerCase (new_LexicalDistance toLowerCase input) input.
Proof. split; reflexivity. Qed.

Lemma measure_value (this : LexicalDistance) (input opt : jsstring) :
  bound_to toLowerCase this input ->
  fst (measure toLowerCase this opt) = Num (distance toLowerCase input opt).
Proof.
  intros [Hi Hl]. unfold measure, distance. rewrite Hi, Hl.
  destruct (str_eqb input opt); [reflexivity|].
  destruct (str_eqb (toLowerCase input) (toLowerCase opt)); [reflexivity|].
  simpl. apply measure_rows_result.
Qed.

Lemma measure_bound_to (this : LexicalDistance) (input opt : jsstring) :
  bound_to toLowerCase this input -> bound_to toLowerCase (snd (measure toLowerCase this opt)) input.
Proof.
  intros [Hi Hl]. unfold measure.
  destruct (str_eqb (_input this) opt); [split; assumption|].
  destruct (str_eqb (_inputLowerCase this) (toLowerCase opt));
    split; assumption.
Qed.

End EngineFacts.

(** ** Properties of the recurrence *)

(** Induction along the dependencies of a cell: its upper, left, diagonal
    and double-diagonal neighbours. *)
Lemma cell_neighbours_ind (P : nat -> nat -> Prop) :
  (forall j, P 0%nat j) ->
  (forall i, P i 0%nat) ->
  (forall i j,
      P i (S j) -> P (S i) j -> P i j -> P (i - 1)%nat (j - 1)%nat ->
      P (S i) (S j)) ->
  forall i j, P i j.
Proof.
  intros Hrow Hcol Hstep.
  assert (H : forall n i j, (i + j < n)%nat -> P i j).
  { induction n as [|n IH]; intros i j Hlt; [lia|].
    destruct i as [|i]; [apply Hrow|].
    destruct j as [|j]; [apply Hcol|].
    apply Hstep; apply IH; lia. }
  intros i j. apply (H (S (i + j))). lia.
Qed.

Section CellFacts.

Variables a b : jsstring.

Lemma cost_range (i j : nat) : 0 <= cost a b i j <= 1.
Proof. unfold cost. destruct (unit_eqb _ _); lia. Qed.

Lemma cell_nonneg (i j : nat) : 0 <= cell a b i j.
Proof.
  revert i j. apply cell_neighbours_ind.
  - intros j. rewrite cell_0_l. lia.
  - intros i. rewrite cell_0_r. lia.
  - intros i j H1 H2 H3 H4. rewrite cell_S_S. cbv zeta.
    pose proof (cost_range (S i) (S j)).
    destruct (transposed a b (S i) (S j)); lia.
Qed.

Lemma cell_le_max (i j : nat) : cell a b i j <= Z.of_nat (Nat.max i j).
Proof.
  revert i j. apply cell_neighbours_ind.
  - intros j. rewrite cell_0_l. lia.
  - intros i. rewrite cell_0_r. lia.
  - intros i j H1 H2 H3 H4. rewrite cell_S_S. cbv zeta.
    pose proof (cost_range (S i) (S j)).
    destruct (transposed a b (S i) (S j)); lia.
Qed.

Lemma firstn_snoc (s : jsstring) (i : nat) (c : N) :
  charAt s i = Some c -> firstn (S i) s = firstn i s ++ [c].
Proof.
  unfold charAt. revert i; induction s as [|d s IH]; intros [|i] H;
    simpl in *; try discriminate.
  - congruence.
  - rewrite (IH i H). reflexivity.
Qed.

Lemma charAt_in_range (s : jsstring) (i : nat) :
  (i < List.length s)%nat -> exists c, charAt s i = Some c.
Proof.
  intros H. unfold charAt. destruct (nth_error s i) eqn:E; eauto.
  apply nth_error_None in E. lia.
Qed.

(** A cell is 0 only where the two prefixes it relates are the same. *)
Lemma cell_zero_prefix (i j : nat) :
  (i <= List.length a)%nat -> (j <= List.length b)%nat ->
  cell a b i j = 0 -> firstn i a = firstn j b.
Proof.
  revert i j. apply (cell_neighbours_ind (fun i j =>
    (i <= List.length a)%nat -> (j <= List.length b)%nat ->
    cell a b i j = 0 -> firstn i a = firstn j b)).
  - intros j _ _. rewrite cell_0_l. intros H.
    assert (j = 0%nat) as -> by lia. reflexivity.
  - intros i _ _. rewrite cell_0_r. intros H.
    assert (i = 0%nat) as -> by lia. reflexivity.
  - intros i j _ _ IH _ Hi Hj. rewrite cell_S_S. cbv zeta.
    pose proof (cell_nonneg i (S j)). pose proof (cell_nonneg (S i) j).
    pose proof (cell_nonneg i j).
    pose proof (cell_nonneg (i - 1) (j - 1)).
    pose proof (cost_range (S i) (S j)).
    intros Hzero.
    assert (Hz : cell a b i j = 0 /\ cost a b (S i) (S j) = 0)
      by (destruct (transposed a b (S i) (S j)); lia).
    destruct Hz as [Hz Hc].
    unfold cost in Hc.
    replace (S i - 1)%nat with i in Hc by lia.
    replace (S j - 1)%nat with j in Hc by lia.
    destruct (unit_eqb (charAt a i) (charAt b j)) eqn:E; [|lia].
    apply unit_eqb_eq in E.
    destruct (charAt_in_range a i) as [c Hc1]; [lia|].
    rewrite (firstn_snoc a i c Hc1).
    rewrite (firstn_snoc b j c) by congruence.
    rewrite IH by (assumption || lia). reflexivity.
Qed.

Lemma cell_zero_eq :
  cell a b (List.length a) (List.length b) = 0 -> a = b.
Proof.
  intros H. apply cell_zero_prefix in H; [|lia|lia].
  rewrite !firstn_all in H. exact H.
Qed.

End CellFacts.

Lemma cost_sym (a b : jsstring) (i j : nat) : cost a b i j = cost b a j i.
Proof. unfold cost. rewrite unit_eqb_sym. reflexivity. Qed.

Lemma transposed_sym (a b : jsstring) (i j : nat) :
  transposed a b i j = transposed b a j i.
Proof.
  unfold transposed.
  rewrite (unit_eqb_sym (charAt a (i - 1))), (unit_eqb_sym (charAt a (i - 2))).
  destruct (1 <? i)%nat, (1 <? j)%nat,
    (unit_eqb (charAt b (j - 2)) (charAt a (i - 1))),
    (unit_eqb (charAt b (j - 1)) (charAt a (i - 2))); reflexivity.
Qed.

(** The matrix of [b] against [a] is the transpose of that of [a]
    against [b]. *)
Lemma cell_sym (a b : jsstring) (i j : nat) : cell a b i j = cell b a j i.
Proof.
  revert i j. apply cell_neighbours_ind.
  - intros j. rewrite cell_0_l, cell_0_r. reflexivity.
  - intros i. rewrite cell_0_l, cell_0_r. reflexivity.
  - intros i j H1 H2 H3 H4. rewrite !cell_S_S. cbv zeta.
    rewrite (transposed_sym b a), (cost_sym b a), H1, H2, H3, H4.
    destruct (transposed a b (S i) (S j)); lia.
Qed.

(** ** Properties of [distance] *)

Section DistanceFacts.

Variable toLowerCase : jsstring -> jsstring.

Lemma distance_refl (s : jsstring) : distance toLowerCase s s = 0.
Proof. unfold distance. rewrite str_eqb_refl. reflexivity. Qed.

Lemma distance_nonneg (s t : jsstring) : 0 <= distance toLowerCase s t.
Proof.
  unfold distance. destruct (str_eqb s t); [lia|].
  destruct (str_eqb _ _); [lia|]. apply cell_nonneg.
Qed.

Lemma distance_zero (s t : jsstring) :
  distance toLowerCase s t = 0 <-> s = t.
Proof.
  split; [|intros ->; apply distance_refl].
  unfold distance. destruct (str_eqb s t) eqn:E.
  - intros _. apply str_eqb_eq; assumption.
  - destruct (str_eqb (toLowerCase s) (toLowerCase t)) eqn:El; [lia|].
    intros H. apply cell_zero_eq in H. apply str_eqb_neq in El. congruence.
Qed.

Lemma distance_sym (s t : jsstring) :
  distance toLowerCase s t = distance toLowerCase t s.
Proof.
  unfold distance.
  destruct (str_eqb s t) eqn:E.
  - apply str_eqb_eq in E. subst. rewrite str_eqb_refl. reflexivity.
  - assert (E' : str_eqb t s = false)
      by (apply str_eqb_neq; apply str_eqb_neq in E; congruence).
    rewrite E'.
    destruct (str_eqb (toLowerCase s) (toLowerCase t)) eqn:El.
    + apply str_eqb_eq in El. rewrite El, str_eqb_refl. reflexivity.
    + assert (El' : str_eqb (toLowerCase t) (toLowerCase s) = false)
        by (apply str_eqb_neq; apply str_eqb_neq in El; congruence).
      rewrite El'. apply cell_sym.
Qed.

Lemma distance_le_lower (s t : jsstring) :
  s <> t ->
  toLowerCase s <> toLowerCase t ->
  distance toLowerCase s t
  <= Z.of_nat (Nat.max (List.length (toLowerCase s))
                       (List.length (toLowerCase t))).
Proof.
  intros Hne Hl. unfold distance.
  apply str_eqb_neq in Hne. apply str_eqb_neq in Hl. rewrite Hne, Hl.
  rewrite Nat.max_comm. apply cell_le_max.
Qed.

End DistanceFacts.

(** ** Objects and their keys *)

Lemma obj_set_keys (obj : object) (k : jsstring) (v : number) (k' : jsstring) :
  In k' (map fst (obj_set obj k v)) <-> k' = k \/ In k' (map fst obj).
Proof.
  induction obj as [|[k0 v0] obj IH]; simpl.
  - intuition congruence.
  - destruct (str_eqb k0 k) eqn:E; simpl.
    + apply str_eqb_eq in E. subst. intuition congruence.
    + rewrite IH. intuition congruence.
Qed.

Lemma obj_set_NoDup (obj : object) (k : jsstring) (v : number) :
  NoDup (map fst obj) -> NoDup (map fst (obj_set obj k v)).
Proof.
  induction obj as [|[k0 v0] obj IH]; simpl; intros Hnd.
  - constructor; [intros []|constructor].
  - inversion Hnd as [|? ? Hnotin Hnd']; subst.
    destruct (str_eqb k0 k) eqn:E; simpl.
    + constructor; assumption.
    + constructor; [|auto].
      rewrite obj_set_keys. intros [->|Hin]; [|contradiction].
      rewrite str_eqb_refl in E. discriminate.
Qed.

Lemma obj_get_set (obj : object) (k : jsstring) (v : number) (k' : jsstring) :
  obj_get (obj_set obj k v) k' = if str_eqb k k' then v else obj_get obj k'.
Proof.
  induction obj as [|[k0 v0] obj IH]; simpl.
  - reflexivity.
  - destruct (str_eqb k0 k) eqn:E; simpl.
    + apply str_eqb_eq in E. subst.
      destruct (str_eqb k k'); reflexivity.
    + destruct (str_eqb k0 k') eqn:E0; [|apply IH].
      apply str_eqb_eq in E0. subst.
      destruct (str_eqb k k') eqn:E1; [|reflexivity].
      apply str_eqb_eq in E1. subst. rewrite str_eqb_refl in E. discriminate.
Qed.

Lemma index_insert_perm (x : jsstring) (l : list jsstring) :
  Permutation (index_insert x l) (x :: l).
Proof.
  induction l as [|y l IH]; simpl; [reflexivity|].
  destruct (index_value x <=? index_value y)%N; [reflexivity|].
  rewrite IH. apply perm_swap.
Qed.

Lemma filter_split_perm {A : Type} (p : A -> bool) (l : list A) :
  Permutation (filter p l ++ filter (fun x => negb (p x)) l) l.
Proof.
  induction l as [|x l IH]; simpl; [reflexivity|].
  destruct (p x); simpl.
  - apply perm_skip, IH.
  - symmetry. apply Permutation_cons_app. symmetry. exact IH.
Qed.

(** [Object.keys] lists each own key once. *)
Lemma Object_keys_perm (obj : object) :
  Permutation (Object_keys obj) (map fst obj).
Proof.
  unfold Object_keys.
  rewrite <- (filter_split_perm is_array_index (map fst obj)) at 3.
  apply Permutation_app_tail.
  induction (filter is_array_index (map fst obj)) as [|x l IH]; simpl.
  - reflexivity.
  - rewrite index_insert_perm. apply perm_skip, IH.
Qed.

(** ** Sorting *)

Lemma Forall_perm {A : Type} {P : A -> Prop} (l l' : list A) :
  Permutation l l' -> Forall P l -> Forall P l'.
Proof.
  intros Hp. rewrite !Forall_forall. intros H x Hx.
  apply H. apply (Permutation_in x (Permutation_sym Hp) Hx).
Qed.

Section SortFacts.

Variable comparefn : jsstring -> jsstring -> number.

Lemma sort_insert_perm (x : jsstring) (l : list jsstring) :
  Permutation (sort_insert comparefn x l) (x :: l).
Proof.
  induction l as [|y l IH]; simpl; [reflexivity|].
  destruct (not_after (comparefn x y)); [reflexivity|].
  rewrite IH. apply perm_swap.
Qed.

Lemma Array_sort_perm (l : list jsstring) :
  Permutation (Array_sort comparefn l) l.
Proof.
  induction l as [|x l IH]; simpl; [reflexivity|].
  rewrite sort_insert_perm. apply perm_skip, IH.
Qed.

(** When the comparator decides a transitive relation [R] on the elements
    of the array, the result is sorted by [R]. *)
Variable R : jsstring -> jsstring -> Prop.
Variable dom : jsstring -> Prop.

Hypothesis R_trans : forall x y z, R x y -> R y z -> R x z.
Hypothesis before_R :
  forall x y, dom x -> dom y -> not_after (comparefn x y) = true -> R x y.
Hypothesis after_R :
  forall x y, dom x -> dom y -> not_after (comparefn x y) = false -> R y x.

Lemma sort_insert_sorted (x : jsstring) (l : list jsstring) :
  dom x -> Forall dom l ->
  StronglySorted R l -> StronglySorted R (sort_insert comparefn x l).
Proof.
  intros Hx Hl Hs. induction Hs as [|y l Hs IH Hy]; simpl.
  - constructor; constructor.
  - inversion Hl as [|? ? Hdy Hdl]; subst.
    destruct (not_after (comparefn x y)) eqn:E.
    + constructor; [constructor; assumption|].
      constructor; [auto|].
      apply Forall_forall. intros z Hz.
      apply R_trans with y; [auto|].
      rewrite Forall_forall in Hy. auto.
    + constructor; [auto|].
      apply (Forall_perm (x :: l)).
      * symmetry. apply sort_insert_perm.
      * constructor; auto.
Qed.

Lemma Array_sort_sorted (l : list jsstring) :
  Forall dom l -> StronglySorted R (Array_sort comparefn l).
Proof.
  induction l as [|x l IH]; simpl; intros Hl.
  - constructor.
  - inversion Hl; subst. apply sort_insert_sorted; auto.
    apply (Forall_perm l); [|assumption].
    symmetry. apply Array_sort_perm.
Qed.

End SortFacts.

(** An element the comparator puts before every other one ends up first. *)
Lemma Array_sort_head (comparefn : jsstring -> jsstring -> number)
    (x : jsstring) (l : list jsstring) :
  In x l ->
  (forall y, In y l -> y <> x ->
     not_after (comparefn x y) = true /\ not_after (comparefn y x) = false) ->
  hd_error (Array_sort comparefn l) = Some x.
Proof.
  induction l as [|y l IH]; simpl; [intros []|].
  intros Hin Hfirst.
  destruct (list_eq_dec N.eq_dec y x) as [->|Hne].
  - destruct (Array_sort comparefn l) as [|h t] eqn:Es; [reflexivity|].
    simpl. destruct (list_eq_dec N.eq_dec h x) as [->|Hh].
    + destruct (not_after (comparefn x x)); reflexivity.
    + assert (Hhl : In h l).
      { apply (Permutation_in h (Array_sort_perm comparefn l)).
        rewrite Es. left; reflexivity. }
      destruct (Hfirst h (or_intror Hhl) Hh) as [-> _]. reflexivity.
  - destruct Hin as [E|Hin]; [congruence|].
    assert (Hs : hd_error (Array_sort comparefn l) = Some x)
      by (apply IH; auto).
    destruct (Array_sort comparefn l) as [|h t]; [discriminate|].
    simpl in Hs. injection Hs as ->. simpl.
    destruct (Hfirst y (or_introl eq_refl) Hne) as [_ ->]. reflexivity.
Qed.

(** ** The loop of [suggestionList] *)

Section RankerFacts.

Variable toLowerCase : jsstring -> jsstring.

Lemma measure_all_bound_to (this : LexicalDistance) (input : jsstring)
    (opts : list jsstring) :
  bound_to toLowerCase this input ->
  bound_to toLowerCase (snd (measure_all toLowerCase this opts)) input.
Proof.
  revert this; induction opts as [|o opts IH]; intros this Hb; simpl.
  - assumption.
  - pose proof (measure_bound_to toLowerCase this input o Hb) as Hb'.
    destruct (measure toLowerCase this o) as [d this'].
    specialize (IH this' Hb').
    destruct (measure_all toLowerCase this' opts) as [ds this''].
    exact IH.
Qed.

Lemma measure_all_values (this : LexicalDistance) (input : jsstring)
    (opts : list jsstring) :
  bound_to toLowerCase this input ->
  fst (measure_all toLowerCase this opts)
  = map (fun o => Num (distance toLowerCase input o)) opts.
Proof.
  revert this; induction opts as [|o opts IH]; intros this Hb; simpl.
  - reflexivity.
  - pose proof (measure_bound_to toLowerCase this input o Hb) as Hb'.
    pose proof (measure_value toLowerCase this input o Hb) as Hv.
    destruct (measure toLowerCase this o) as [d this'].
    specialize (IH this' Hb').
    destruct (measure_all toLowerCase this' opts) as [ds this''].
    simpl in *. congruence.
Qed.

Lemma suggest_step_eq (this : LexicalDistance) (input : jsstring)
    (obj : object) (o : jsstring) :
  bound_to toLowerCase this input ->
  suggest_step toLowerCase input (obj, this) o
  = (record_step toLowerCase input obj o, snd (measure toLowerCase this o)).
Proof.
  intros Hb. unfold suggest_step, record_step, passes, threshold.
  pose proof (measure_value toLowerCase this input o Hb) as Hv.
  destruct (measure toLowerCase this o) as [d this']. simpl in *. subst d.
  unfold nleq. destruct (Qle_bool _ _); reflexivity.
Qed.

Lemma suggest_fold_eq (this : LexicalDistance) (input : jsstring)
    (obj : object) (opts : list jsstring) :
  bound_to toLowerCase this input ->
  fold_left (suggest_step toLowerCase input) opts (obj, this)
  = (fold_left (record_step toLowerCase input) opts obj,
     snd (measure_all toLowerCase this opts)).
Proof.
  revert this obj; induction opts as [|o opts IH]; intros this obj Hb;
    cbn [fold_left measure_all].
  - reflexivity.
  - rewrite suggest_step_eq by assumption.
    rewrite IH by (apply measure_bound_to; assumption).
    destruct (measure toLowerCase this o) as [d this']. cbn [fst snd].
    destruct (measure_all toLowerCase this' opts). reflexivity.
Qed.

Lemma suggest_loop_eq (input : jsstring) (opts : list jsstring) :
  suggest_loop toLowerCase input opts
  = (fold_left (record_step toLowerCase input) opts Object_create_null,
     snd (measure_all toLowerCase (new_LexicalDistance toLowerCase input) opts)).
Proof. apply suggest_fold_eq, new_bound_to. Qed.

Lemma record_fold_keys (input : jsstring) (opts : list jsstring)
    (obj : object) (k : jsstring) :
  In k (map fst (fold_left (record_step toLowerCase input) opts obj))
  <-> In k (map fst obj) \/ (In k opts /\ passes toLowerCase input k = true).
Proof.
  revert obj; induction opts as [|o opts IH]; intros obj; simpl.
  - tauto.
  - rewrite IH. unfold record_step at 1.
    destruct (passes toLowerCase input o) eqn:E.
    + rewrite obj_set_keys. intuition (subst; auto).
    + intuition (subst; auto; congruence).
Qed.

Lemma record_fold_NoDup (input : jsstring) (opts : list jsstring)
    (obj : object) :
  NoDup (map fst obj) ->
  NoDup (map fst (fold_left (record_step toLowerCase input) opts obj)).
Proof.
  revert obj; induction opts as [|o opts IH]; intros obj Hnd; simpl.
  - assumption.
  - apply IH. unfold record_step.
    destruct (passes toLowerCase input o); auto using obj_set_NoDup.
Qed.

Lemma record_fold_get (input : jsstring) (opts : list jsstring)
    (obj : object) :
  (forall k, In k (map fst obj) ->
     obj_get obj k = Num (distance toLowerCase input k)) ->
  forall k, In k (map fst (fold_left (record_step toLowerCase input) opts obj)) ->
    obj_get (fold_left (record_step toLowerCase input) opts obj) k
    = Num (distance toLowerCase input k).
Proof.
  revert obj; induction opts as [|o opts IH]; intros obj Hobj; simpl.
  - assumption.
  - apply IH. intros k. unfold record_step.
    destruct (passes toLowerCase input o); [|apply Hobj].
    rewrite obj_set_keys, obj_get_set.
    destruct (str_eqb o k) eqn:E.
    + apply str_eqb_eq in E. subst. reflexivity.
    + intros [->|Hin]; [|auto]. rewrite str_eqb_refl in E. discriminate.
Qed.

Lemma passes_iff (input o : jsstring) :
  passes toLowerCase input o = true
  <-> (inject_Z (distance toLowerCase input o) <= threshold input o)%Q.
Proof. unfold passes, nleq. apply Qle_bool_iff. Qed.

Lemma threshold_ge_1 (input o : jsstring) : (1 <= threshold input o)%Q.
Proof. unfold threshold, Math_max3. apply Q.le_max_r. Qed.

Lemma passes_self (input : jsstring) : passes toLowerCase input input = true.
Proof.
  apply passes_iff. rewrite distance_refl.
  apply Qle_trans with 1%Q; [discriminate | apply threshold_ge_1].
Qed.

Variable localeCompare : jsstring -> jsstring -> Z.

(** What [suggestionList] returns is a rearrangement of the keys recorded. *)
Lemma suggestionList_perm (input : jsstring) (opts : list jsstring) :
  Permutation (suggestionList toLowerCase localeCompare input opts)
    (map fst (fold_left (record_step toLowerCase input) opts Object_create_null)).
Proof.
  unfold suggestionList. rewrite suggest_loop_eq. simpl fst.
  rewrite Array_sort_perm. apply Object_keys_perm.
Qed.

Lemma suggestionList_In (input : jsstring) (opts : list jsstring)
    (k : jsstring) :
  In k (suggestionList toLowerCase localeCompare input opts)
  <-> In k opts /\ passes toLowerCase input k = true.
Proof.
  split.
  - intros H. apply (Permutation_in k (suggestionList_perm input opts)) in H.
    apply record_fold_keys in H. simpl in H. tauto.
  - intros H.
    apply (Permutation_in k (Permutation_sym (suggestionList_perm input opts))).
    apply record_fold_keys. right. exact H.
Qed.

Lemma measured_distance (input o : jsstring) :
  measured toLowerCase input o = Num (distance toLowerCase input o).
Proof. apply measure_value, new_bound_to. Qed.

End RankerFacts.

(** ** The stand-in collation is a total order *)

Lemma compareUnits_total (s t : jsstring) :
  compareUnits s t <= 0 \/ compareUnits t s <= 0.
Proof.
  unfold compareUnits.
  rewrite (list_compare_antisym N.compare N.compare_eq_iff s t)
    by (intros x y; apply N.compare_antisym).
  destruct (list_compare N.compare s t); simpl; lia.
Qed.

Lemma N_compare_trans (x y z : N) (c : comparison) :
  (x ?= y)%N = c -> (y ?= z)%N = c -> (x ?= z)%N = c.
Proof.
  destruct c; rewrite ?N.compare_eq_iff, ?N.compare_lt_iff, ?N.compare_gt_iff;
    lia.
Qed.

Lemma compareUnits_trans (s t u : jsstring) :
  compareUnits s t <= 0 -> compareUnits t u <= 0 -> compareUnits s u <= 0.
Proof.
  unfold compareUnits.
  destruct (list_compare N.compare s t) eqn:E1; [| |simpl; lia];
    destruct (list_compare N.compare t u) eqn:E2; try (simpl; lia);
    intros _ _.
  - apply (list_compare_refl N.compare N.compare_eq_iff) in E1. subst.
    rewrite E2. lia.
  - apply (list_compare_refl N.compare N.compare_eq_iff) in E1. subst.
    rewrite E2. lia.
  - apply (list_compare_refl N.compare N.compare_eq_iff) in E2. subst.
    rewrite E1. lia.
  - rewrite (list_compare_trans N.compare N.compare_eq_iff s t u (c := Lt));
      [lia | apply N_compare_trans
           | intros x y; apply N.compare_antisym | assumption | assumption].
Qed.

(** * The distance engine *)

(** C2.  [measure] does not always return the minimum number of edits
    (insertions, deletions, substitutions, swaps of two adjacent
    characters) between the lowercase forms: for the input "abc" and the
    option "ca", whose lowercase forms differ, it returns 3, while two
    edits, "ca" -> "ac" -> "abc", transform one into the other. *)
Theorem measure_ca_abc_not_minimal :
  toLowerCaseBasic (js "ca") <> toLowerCaseBasic (js "abc") /\
  measured toLowerCaseBasic (js "abc") (js "ca") = Num 3 /\
  edits 2 (toLowerCaseBasic (js "ca")) (toLowerCaseBasic (js "abc")).
Proof.
  split; [discriminate|]. split; [reflexivity|].
  change (toLowerCaseBasic (js "ca")) with ([] ++ 99%N :: 97%N :: []).
  change (toLowerCaseBasic (js "abc")) with ([97%N] ++ 98%N :: [99%N]).
  apply edits_step with ([] ++ 97%N :: 99%N :: []).
  - apply edit_swap.
  - apply edits_step with ([97%N] ++ 98%N :: [99%N]).
    + apply (edit_insert [97%N] 98%N [99%N]).
    + apply edits_done.
Qed.

(** C3.  For every string [s] and every case variant [s'] of [s] (same
    lowercase form, but not the same string), [measure] on an engine bound
    to [s] returns exactly 1 for [s']. *)
Theorem measure_case_variant (toLowerCase : jsstring -> jsstring)
    (this : LexicalDistance) (s s' : jsstring) :
  bound_to toLowerCase this s ->
  toLowerCase s' = toLowerCase s ->
  s' <> s ->
  fst (measure toLowerCase this s') = Num 1.
Proof.
  intros Hb Hl Hne. rewrite (measure_value toLowerCase this s s' Hb).
  unfold distance.
  assert (E : str_eqb s s' = false) by (apply str_eqb_neq; congruence).
  rewrite E, Hl, str_eqb_refl. reflexivity.
Qed.

(** "ID" against "id": distance 1, where plain Levenshtein counts 2. *)
Lemma measure_case_variant_witness :
  fst (measure toLowerCaseBasic
         (new_LexicalDistance toLowerCaseBasic (js "ID")) (js "id")) = Num 1
  /\ levenshtein (js "ID") (js "id") = 2.
Proof.
  split.
  - apply (measure_case_variant toLowerCaseBasic
             (new_LexicalDistance toLowerCaseBasic (js "ID"))
             (js "ID") (js "id")).
    + split; reflexivity.
    + reflexivity.
    + discriminate.
  - reflexivity.
Defined.

(** C4, as stated, fails: the lowercase form of U+0130 is two code units
    long, so that against the empty input the option made of that one
    unit is at distance 2, above the longer of the two lengths, 1. *)
Lemma measure_exceeds_lengths :
  measured toLowerCaseBasic [] [304%N] = Num 2 /\
  Z.of_nat (Nat.max (List.length (@nil N)) (List.length [304%N])) < 2.
Proof. split; [reflexivity | simpl; lia]. Qed.

(** C4, amended.  For every pair of strings [a] and [b], on an engine
    bound to [a]: when the lowercase forms of [a] and [b] are as long as
    [a] and [b] are, the distance [measure] returns for [b] is a
    non-negative integer at most [max (length a) (length b)]; and the
    distance of [a] to itself is 0. *)
Theorem measure_bounded (toLowerCase : jsstring -> jsstring)
    (this : LexicalDistance) (a b : jsstring) :
  bound_to toLowerCase this a ->
  (List.length (toLowerCase a) = List.length a ->
   List.length (toLowerCase b) = List.length b ->
   exists d, fst (measure toLowerCase this b) = Num d /\
             0 <= d <= Z.of_nat (Nat.max (List.length a) (List.length b)))
  /\ fst (measure toLowerCase this a) = Num 0.
Proof.
  intros Hb. rewrite !(measure_value toLowerCase this a _ Hb).
  split; [|rewrite distance_refl; reflexivity].
  intros Ha Hlb.
  exists (distance toLowerCase a b). split; [reflexivity|].
  split; [apply distance_nonneg|].
  destruct (list_eq_dec N.eq_dec a b) as [->|Hne].
  - rewrite distance_refl. lia.
  - destruct (list_eq_dec N.eq_dec (toLowerCase a) (toLowerCase b))
      as [El|Hl].
    + unfold distance.
      apply str_eqb_neq in Hne. rewrite Hne.
      apply str_eqb_eq in El. rewrite El.
      apply str_eqb_neq in Hne.
      destruct a, b; simpl; try congruence; lia.
    + pose proof (distance_le_lower toLowerCase a b Hne Hl) as H.
      rewrite Ha, Hlb in H. exact H.
Qed.

(** "Colour" against "color", and "color" against itself. *)
Lemma measure_bounded_witness :
  (exists d,
      fst (measure toLowerCaseBasic
             (new_LexicalDistance toLowerCaseBasic (js "color"))
             (js "Colour")) = Num d /\
      0 <= d <= Z.of_nat (Nat.max (List.length (js "color"))
                                  (List.length (js "Colour"))))
  /\ fst (measure toLowerCaseBasic
            (new_LexicalDistance toLowerCaseBasic (js "color"))
            (js "color")) = Num 0.
Proof.
  destruct (measure_bounded toLowerCaseBasic
              (new_LexicalDistance toLowerCaseBasic (js "color"))
              (js "color") (js "Colour")) as [Hbound Hself].
  - split; reflexivity.
  - split.
    + apply Hbound; reflexivity.
    + exact Hself.
Defined.

(** C6.  Wherever lower-casing leaves "ab" and "ba" as they are, the
    distance measured between them is exactly 1, in either direction;
    plain Levenshtein gives 2. *)
Theorem measure_ab_ba (toLowerCase : jsstring -> jsstring) :
  toLowerCase (js "ab") = js "ab" ->
  toLowerCase (js "ba") = js "ba" ->
  measured toLowerCase (js "ab") (js "ba") = Num 1 /\
  measured toLowerCase (js "ba") (js "ab") = Num 1 /\
  levenshtein (js "ab") (js "ba") = 2.
Proof.
  intros Hab Hba. rewrite !measured_distance. unfold distance.
  rewrite Hab, Hba. repeat split; reflexivity.
Qed.

Lemma measure_ab_ba_witness :
  measured toLowerCaseBasic (js "ab") (js "ba") = Num 1 /\
  measured toLowerCaseBasic (js "ba") (js "ab") = Num 1 /\
  levenshtein (js "ab") (js "ba") = 2.
Proof.
  apply (measure_ab_ba toLowerCaseBasic); reflexivity.
Defined.

(** C7.  For every pair of strings [a] and [b], the distance of [b]
    measured by an engine built for [a] is the distance of [a] measured by
    an engine built for [b]. *)
Theorem measure_symmetric (toLowerCase : jsstring -> jsstring)
    (a b : jsstring) :
  measured toLowerCase a b = measured toLowerCase b a.
Proof. rewrite !measured_distance, distance_sym. reflexivity. Qed.

(** C8.  On one engine, the value a [measure] call returns depends only on
    the engine's input and on the candidate of that call: after any
    earlier calls it is the value a fresh engine returns, and so it is
    whatever the three scratch rows hold when the call starts. *)
Theorem measure_independent_of_history (toLowerCase : jsstring -> jsstring)
    (input : jsstring) :
  (forall earlier opt,
      fst (measure toLowerCase
             (snd (measure_all toLowerCase
                     (new_LexicalDistance toLowerCase input) earlier)) opt)
      = measured toLowerCase input opt)
  /\
  (forall earlier,
      fst (measure_all toLowerCase
             (new_LexicalDistance toLowerCase input) earlier)
      = map (measured toLowerCase input) earlier)
  /\
  (forall rows opt,
      fst (measure toLowerCase
             {| _input := input;
                _inputLowerCase := toLowerCase input;
                _rows := rows |} opt)
      = measured toLowerCase input opt).
Proof.
  split; [|split].
  - intros earlier opt. rewrite measured_distance.
    apply measure_value, measure_all_bound_to, new_bound_to.
  - intros earlier.
    rewrite (measure_all_values toLowerCase _ input earlier)
      by apply new_bound_to.
    apply map_ext. intros o. rewrite measured_distance. reflexivity.
  - intros rows opt. rewrite measured_distance.
    apply measure_value. split; reflexivity.
Qed.

(** * The ranking function *)

Section RankingClaims.

Variable toLowerCase : jsstring -> jsstring.
Variable localeCompare : jsstring -> jsstring -> Z.


Lemma recorded_eq (input : jsstring) (options : list jsstring) :
  fst (suggest_loop toLowerCase input options)
  = fold_left (record_step toLowerCase input) options Object_create_null.
Proof. rewrite suggest_loop_eq. reflexivity. Qed.

Lemma recorded_get (input : jsstring) (options : list jsstring)
    (k : jsstring) :
  In k (suggestionList toLowerCase localeCompare input options) ->
  obj_get (fst (suggest_loop toLowerCase input options)) k = Num (distance toLowerCase input k).
Proof.
  intros Hin. rewrite recorded_eq. apply record_fold_get.
  - intros k' [].
  - apply (Permutation_in k
             (suggestionList_perm toLowerCase localeCompare input options)).
    exact Hin.
Qed.

Lemma compareFn_Num (obj : object) (x y : jsstring) (dx dy : Z) :
  obj_get obj x = Num dx -> obj_get obj y = Num dy ->
  compareFn localeCompare obj x y
  = Num (if dx - dy =? 0 then localeCompare x y else dx - dy).
Proof.
  intros Hx Hy. unfold compareFn. rewrite Hx, Hy. simpl.
  destruct (dx - dy); reflexivity.
Qed.

Lemma ranked_before_trans (input : jsstring) :
  (forall x y z, localeCompare x y <= 0 -> localeCompare y z <= 0 ->
                 localeCompare x z <= 0) ->
  forall x y z,
    ranked_before toLowerCase localeCompare input x y ->
    ranked_before toLowerCase localeCompare input y z ->
    ranked_before toLowerCase localeCompare input x z.
Proof.
  intros Htrans x y z (dx & dy & Hx & Hy & Hxy) (dy' & dz & Hy' & Hz & Hyz).
  rewrite Hy in Hy'. injection Hy' as <-.
  exists dx, dz. repeat split; try assumption.
  destruct Hxy as [Hlt|[-> Hc1]], Hyz as [Hlt'|[-> Hc2]];
    try (left; lia).
  right. split; [reflexivity|]. eapply Htrans; eassumption.
Qed.

Lemma rank_sorted (input : jsstring) (options : list jsstring) :
  (forall x y, localeCompare x y <= 0 \/ localeCompare y x <= 0) ->
  (forall x y z, localeCompare x y <= 0 -> localeCompare y z <= 0 ->
                 localeCompare x z <= 0) ->
  StronglySorted (ranked_before toLowerCase localeCompare input)
    (suggestionList toLowerCase localeCompare input options).
Proof.
  intros Htotal Htrans.
  pose (dom := fun k => In k (suggestionList toLowerCase localeCompare input options)).
  unfold suggestionList at 1.
  apply (Array_sort_sorted _ _ dom).
  - apply ranked_before_trans; assumption.
  - intros x y Hx Hy Hc.
    rewrite (compareFn_Num _ x y _ _ (recorded_get _ _ _ Hx)
               (recorded_get _ _ _ Hy)) in Hc.
    exists (distance toLowerCase input x), (distance toLowerCase input y).
    rewrite !measured_distance. repeat split.
    unfold not_after in Hc. apply Z.leb_le in Hc.
    destruct (Z.eqb_spec (distance toLowerCase input x
                          - distance toLowerCase input y) 0); lia.
  - intros x y Hx Hy Hc.
    rewrite (compareFn_Num _ x y _ _ (recorded_get _ _ _ Hx)
               (recorded_get _ _ _ Hy)) in Hc.
    exists (distance toLowerCase input y), (distance toLowerCase input x).
    rewrite !measured_distance. repeat split.
    unfold not_after in Hc. apply Z.leb_gt in Hc.
    destruct (Z.eqb_spec (distance toLowerCase input x
                          - distance toLowerCase input y) 0);
      [|lia].
    right. split; [lia|]. destruct (Htotal x y); [lia | assumption].
  - apply Forall_forall. intros k Hk. unfold dom, suggestionList.
    apply (Permutation_in k (Permutation_sym (Array_sort_perm _ _))).
    exact Hk.
Qed.

(** C1.  When [localeCompare] is a total preorder: a candidate of the list
    is in the result if and only if its measured distance is at most
    [max (length input / 2) (length candidate / 2) 1], the halves being
    exact fractions; and the result is sorted by ascending distance, ties
    by ascending [localeCompare]. *)
Theorem suggestionList_filters_and_sorts
    (localeCompare_total :
       forall x y, localeCompare x y <= 0 \/ localeCompare y x <= 0)
    (localeCompare_trans :
       forall x y z, localeCompare x y <= 0 -> localeCompare y z <= 0 ->
                     localeCompare x z <= 0)
    (input : jsstring) (options : list jsstring) :
  (forall o, In o options ->
     (In o (suggestionList toLowerCase localeCompare input options) <->
      exists d, measured toLowerCase input o = Num d /\
                (inject_Z d <= threshold input o)%Q))
  /\
  StronglySorted (ranked_before toLowerCase localeCompare input)
    (suggestionList toLowerCase localeCompare input options).
Proof.
  split; [|apply rank_sorted; assumption].
  intros o Ho. rewrite suggestionList_In, passes_iff, measured_distance.
  split.
  - intros [_ H]. eauto.
  - intros (d & [= <-] & H). auto.
Qed.

(** C5.  The result holds only strings of the candidate list, none of them
    twice; and the distance recorded for a string of the result is the one
    [measure] returned at its last occurrence in the list. *)
Theorem suggestionList_subset_nodup
    (input : jsstring) (options : list jsstring) :
  incl (suggestionList toLowerCase localeCompare input options) options
  /\
  NoDup (suggestionList toLowerCase localeCompare input options)
  /\
  (forall pre k post,
      options = pre ++ k :: post -> ~ In k post ->
      In k (suggestionList toLowerCase localeCompare input options) ->
      obj_get (fst (suggest_loop toLowerCase input options)) k
      = fst (measure toLowerCase
               (snd (suggest_loop toLowerCase input pre)) k)).
Proof.
  split; [|split].
  - intros k Hk. apply suggestionList_In in Hk. tauto.
  - apply (Permutation_NoDup
             (Permutation_sym
                (suggestionList_perm toLowerCase localeCompare input options))).
    apply record_fold_NoDup. constructor.
  - intros pre k post _ _ Hk.
    rewrite (recorded_get _ _ _ Hk).
    symmetry. apply measure_value.
    rewrite suggest_loop_eq. simpl snd.
    apply measure_all_bound_to, new_bound_to.
Qed.

(** C10.  [measure] returns 0 exactly for the candidate that is the input
    itself, code unit for code unit; hence, when the input is among the
    candidates, it is the first suggestion. *)
Theorem measure_zero_iff_identical :
  (forall this input opt,
      bound_to toLowerCase this input ->
      (fst (measure toLowerCase this opt) = Num 0 <-> opt = input))
  /\
  (forall input options,
      In input options ->
      hd_error (suggestionList toLowerCase localeCompare input options)
      = Some input).
Proof.
  split.
  - intros this input opt Hb.
    rewrite (measure_value toLowerCase this input opt Hb). split.
    + intros [= H]. symmetry. apply (distance_zero toLowerCase). exact H.
    + intros ->. rewrite distance_refl. reflexivity.
  - intros input options Hin.
    assert (Hres : In input (suggestionList toLowerCase localeCompare input options)).
    { apply suggestionList_In. split; [assumption | apply (passes_self toLowerCase)]. }
    assert (Hkeys : forall k, In k (Object_keys (fst (suggest_loop toLowerCase input options))) ->
                              In k (suggestionList toLowerCase localeCompare input options)).
    { intros k Hk. unfold suggestionList.
      apply (Permutation_in k (Permutation_sym (Array_sort_perm _ _))).
      exact Hk. }
    unfold suggestionList. apply Array_sort_head.
    + apply (Permutation_in input (Array_sort_perm
               (compareFn localeCompare (fst (suggest_loop toLowerCase input options))) _)).
      exact Hres.
    + intros y Hy Hne. apply Hkeys in Hy.
      pose proof (recorded_get _ _ _ Hy) as Gy.
      pose proof (recorded_get _ _ _ Hres) as Gi.
      rewrite distance_refl in Gi.
      pose proof (distance_nonneg toLowerCase input y) as Hge.
      assert (Hnz : distance toLowerCase input y <> 0).
      { intros H0. apply (distance_zero toLowerCase) in H0. congruence. }
      rewrite (compareFn_Num _ input y _ _ Gi Gy).
      rewrite (compareFn_Num _ y input _ _ Gy Gi).
      unfold not_after. split.
      * destruct (Z.eqb_spec (0 - distance toLowerCase input y) 0);
          [lia | apply Z.leb_le; lia].
      * destruct (Z.eqb_spec (distance toLowerCase input y - 0) 0);
          [lia | apply Z.leb_gt; lia].
Qed.

End RankingClaims.

(** C1 at the input "cat" and the candidates "cap", "bat", with the code
    units as collation. *)
Lemma suggestionList_filters_and_sorts_witness :
  (forall o, In o [js "cap"; js "bat"] ->
     (In o (suggestionList toLowerCaseBasic compareUnits (js "cat")
              [js "cap"; js "bat"]) <->
      exists d, measured toLowerCaseBasic (js "cat") o = Num d /\
                (inject_Z d <= threshold (js "cat") o)%Q))
  /\
  StronglySorted (ranked_before toLowerCaseBasic compareUnits (js "cat"))
    (suggestionList toLowerCaseBasic compareUnits (js "cat")
       [js "cap"; js "bat"]).
Proof.
  apply (suggestionList_filters_and_sorts toLowerCaseBasic compareUnits
           compareUnits_total compareUnits_trans
           (js "cat") [js "cap"; js "bat"]).
Defined.

(** C5 at the input "cat" and the candidates "cap", "bat", "cap": the
    distance recorded for "cap" is the one of the third call. *)
Lemma suggestionList_subset_nodup_witness :
  obj_get (fst (suggest_loop toLowerCaseBasic (js "cat")
                  [js "cap"; js "bat"; js "cap"])) (js "cap")
  = fst (measure toLowerCaseBasic
           (snd (suggest_loop toLowerCaseBasic (js "cat")
                   [js "cap"; js "bat"])) (js "cap")).
Proof.
  apply (proj2 (proj2 (suggestionList_subset_nodup toLowerCaseBasic
                         compareUnits (js "cat")
                         [js "cap"; js "bat"; js "cap"]))
           [js "cap"; js "bat"] (js "cap") []).
  - reflexivity.
  - intros [].
  - vm_compute. right. left. reflexivity.
Defined.

(** C10 at the input "cat" and the candidates "bat", "cat". *)
Lemma measure_zero_iff_identical_witness :
  (fst (measure toLowerCaseBasic
          (new_LexicalDistance toLowerCaseBasic (js "cat")) (js "cat"))
   = Num 0 <-> js "cat" = js "cat")
  /\
  hd_error (suggestionList toLowerCaseBasic compareUnits (js "cat")
              [js "bat"; js "cat"]) = Some (js "cat").
Proof.
  destruct (measure_zero_iff_identical toLowerCaseBasic compareUnits)
    as [Hzero Hfirst].
  split.
  - apply Hzero. split; reflexivity.
  - apply Hfirst. right. left. reflexivity.
Defined.

(** * Further properties of the distance engine *)

(** ** The value returned is the length of an edit script *)

Lemma edit_app_r (s t r : jsstring) : edit s t -> edit (s ++ r) (t ++ r).
Proof.
  intros H. destruct H as [p c s|p c s|p c c' s|p c c' s];
    rewrite <- !app_assoc; simpl; constructor.
Qed.

Lemma edits_app_r (n : nat) (s t r : jsstring) :
  edits n s t -> edits n (s ++ r) (t ++ r).
Proof.
  induction 1 as [s|n s t u Hst _ IH].
  - constructor.
  - apply edits_step with (t ++ r); [apply edit_app_r|]; assumption.
Qed.

Lemma edits_trans (n m : nat) (s t u : jsstring) :
  edits n s t -> edits m t u -> edits (n + m) s u.
Proof.
  induction 1 as [s|n s t' t Hst _ IH]; intros Htu; simpl.
  - assumption.
  - apply edits_step with t'; auto.
Qed.

Lemma edits_one (s t : jsstring) : edit s t -> edits 1 s t.
Proof. intros H. apply edits_step with t; [assumption | constructor]. Qed.

Lemma edits_eq_count (n m : nat) (s t : jsstring) :
  n = m -> edits n s t -> edits m s t.
Proof. intros ->; auto. Qed.

(** Deleting every unit, and inserting every unit. *)
Lemma edits_delete_all (s : jsstring) : edits (List.length s) s [].
Proof.
  induction s as [|c s IH]; simpl.
  - constructor.
  - apply edits_step with s; [apply (edit_delete [] c s) | exact IH].
Qed.

Lemma edits_insert_all (s : jsstring) : edits (List.length s) [] s.
Proof.
  induction s as [|c s IH]; simpl.
  - constructor.
  - apply (edits_eq_count (List.length s + 1)); [lia|].
    apply edits_trans with s; [exact IH|].
    apply edits_one. apply (edit_insert [] c s).
Qed.

Section Scripts.

Variables a b : jsstring.

(** Every cell of the matrix counts the edits of some script between the
    two prefixes it relates. *)
Lemma cell_edits (i j : nat) :
  (i <= List.length a)%nat -> (j <= List.length b)%nat ->
  edits (Z.to_nat (cell a b i j)) (firstn i a) (firstn j b).
Proof.
  revert i j. apply (cell_neighbours_ind (fun i j =>
    (i <= List.length a)%nat -> (j <= List.length b)%nat ->
    edits (Z.to_nat (cell a b i j)) (firstn i a) (firstn j b))).
  - intros j _ Hj. rewrite cell_0_l, Nat2Z.id. simpl firstn.
    apply (edits_eq_count (List.length (firstn j b)));
      [apply firstn_length_le; assumption | apply edits_insert_all].
  - intros i Hi _. rewrite cell_0_r, Nat2Z.id. simpl firstn.
    apply (edits_eq_count (List.length (firstn i a)));
      [apply firstn_length_le; assumption | apply edits_delete_all].
  - intros i j IHup IHleft IHdiag IHdd Hi Hj.
    destruct (charAt_in_range a i) as [ai Hai]; [lia|].
    destruct (charAt_in_range b j) as [bj Hbj]; [lia|].
    rewrite (firstn_snoc a i ai Hai), (firstn_snoc b j bj Hbj).
    pose proof (cell_nonneg a b i (S j)) as Hx.
    pose proof (cell_nonneg a b (S i) j) as Hy.
    pose proof (cell_nonneg a b i j) as Hz.
    pose proof (cell_nonneg a b (i - 1) (j - 1)) as Hw.
    (* deletion of the last unit of the prefix of [a] *)
    assert (Hdel : edits (Z.to_nat (cell a b i (S j) + 1))
                     (firstn i a ++ [ai]) (firstn j b ++ [bj])).
    { apply (edits_eq_count (1 + Z.to_nat (cell a b i (S j)))); [lia|].
      apply edits_trans with (firstn i a).
      - apply edits_one.
        rewrite <- (app_nil_r (firstn i a)) at 2.
        apply (edit_delete (firstn i a) ai []).
      - rewrite <- (firstn_snoc b j bj Hbj). apply IHup; lia. }
    (* insertion of the last unit of the prefix of [b] *)
    assert (Hins : edits (Z.to_nat (cell a b (S i) j + 1))
                     (firstn i a ++ [ai]) (firstn j b ++ [bj])).
    { apply (edits_eq_count (Z.to_nat (cell a b (S i) j) + 1)); [lia|].
      apply edits_trans with (firstn j b).
      - rewrite <- (firstn_snoc a i ai Hai). apply IHleft; lia.
      - apply edits_one.
        rewrite <- (app_nil_r (firstn j b)) at 1.
        apply (edit_insert (firstn j b) bj []). }
    (* substitution of the last unit, or nothing when the units agree *)
    assert (Hsub : edits (Z.to_nat (cell a b i j + cost a b (S i) (S j)))
                     (firstn i a ++ [ai]) (firstn j b ++ [bj])).
    { unfold cost.
      replace (S i - 1)%nat with i by lia. replace (S j - 1)%nat with j by lia.
      rewrite Hai, Hbj. simpl unit_eqb.
      destruct (N.eqb_spec ai bj) as [->|Hne].
      - rewrite Z.add_0_r. apply edits_app_r. apply IHdiag; lia.
      - apply (edits_eq_count (Z.to_nat (cell a b i j) + 1)); [lia|].
        apply edits_trans with (firstn j b ++ [ai]).
        + apply edits_app_r. apply IHdiag; lia.
        + apply edits_one. apply (edit_substitute (firstn j b) ai bj []). }
    rewrite cell_S_S. cbv zeta.
    destruct (transposed a b (S i) (S j)) eqn:Ht.
    + (* swap of the last two units *)
      assert (Hswap : edits (Z.to_nat (cell a b (i - 1) (j - 1) + 1))
                        (firstn i a ++ [ai]) (firstn j b ++ [bj])).
      { pose proof (transposed_pos a b _ _ Ht) as [Hi1 Hj1].
        destruct i as [|i']; [lia|]. destruct j as [|j']; [lia|].
        unfold transposed in Ht. rewrite !andb_true_iff in Ht.
        destruct Ht as [[_ H1] H2].
        apply unit_eqb_eq in H1. apply unit_eqb_eq in H2.
        replace (S (S i') - 1)%nat with (S i') in H1 by lia.
        replace (S (S j') - 2)%nat with j' in H1 by lia.
        replace (S (S i') - 2)%nat with i' in H2 by lia.
        replace (S (S j') - 1)%nat with (S j') in H2 by lia.
        replace (S i' - 1)%nat with i' in * by lia.
        replace (S j' - 1)%nat with j' in * by lia.
        rewrite Hai in H1. rewrite Hbj in H2.
        rewrite (firstn_snoc a i' bj) by congruence.
        rewrite (firstn_snoc b j' ai) by congruence.
        rewrite <- !app_assoc. simpl.
        apply (edits_eq_count (1 + Z.to_nat (cell a b i' j'))); [lia|].
        apply edits_trans with (firstn i' a ++ [ai; bj]).
        - apply edits_one. apply (edit_swap (firstn i' a) bj ai []).
        - apply edits_app_r. apply IHdd; lia. }
      destruct (Z.min_spec
                  (Z.min (Z.min (cell a b i (S j) + 1) (cell a b (S i) j + 1))
                         (cell a b i j + cost a b (S i) (S j)))
                  (cell a b (i - 1) (j - 1) + 1)) as [[_ ->]|[_ ->]];
        [|exact Hswap].
      destruct (Z.min_spec
                  (Z.min (cell a b i (S j) + 1) (cell a b (S i) j + 1))
                  (cell a b i j + cost a b (S i) (S j))) as [[_ ->]|[_ ->]];
        [|exact Hsub].
      destruct (Z.min_spec (cell a b i (S j) + 1) (cell a b (S i) j + 1))
        as [[_ ->]|[_ ->]]; assumption.
    + destruct (Z.min_spec
                  (Z.min (cell a b i (S j) + 1) (cell a b (S i) j + 1))
                  (cell a b i j + cost a b (S i) (S j))) as [[_ ->]|[_ ->]];
        [|exact Hsub].
      destruct (Z.min_spec (cell a b i (S j) + 1) (cell a b (S i) j + 1))
        as [[_ ->]|[_ ->]]; assumption.
Qed.

(** A cell is at least the difference of its two indices. *)
Lemma cell_ge_gap (i j : nat) :
  Z.abs (Z.of_nat i - Z.of_nat j) <= cell a b i j.
Proof.
  revert i j. apply cell_neighbours_ind.
  - intros j. rewrite cell_0_l. lia.
  - intros i. rewrite cell_0_r. lia.
  - intros i j H1 H2 H3 H4. rewrite cell_S_S. cbv zeta.
    pose proof (cost_range a b (S i) (S j)).
    destruct (transposed a b (S i) (S j)) eqn:Ht; [|lia].
    apply transposed_pos in Ht. lia.
Qed.

End Scripts.

(** X1.  When the lowercase forms of the option and of the input differ,
    the number [measure] returns is the length of a sequence of edits
    (insertions, deletions, substitutions, swaps of adjacent units) that
    turns the lowercase option into the lowercase input: the distance is
    never below what some script achieves. *)
Theorem measure_counts_an_edit_script (toLowerCase : jsstring -> jsstring)
    (this : LexicalDistance) (input opt : jsstring) :
  bound_to toLowerCase this input ->
  toLowerCase opt <> toLowerCase input ->
  exists d, fst (measure toLowerCase this opt) = Num d /\ 0 <= d /\
            edits (Z.to_nat d) (toLowerCase opt) (toLowerCase input).
Proof.
  intros Hb Hne. rewrite (measure_value toLowerCase this input opt Hb).
  exists (distance toLowerCase input opt).
  split; [reflexivity|]. split; [apply distance_nonneg|].
  unfold distance.
  assert (E1 : str_eqb input opt = false)
    by (apply str_eqb_neq; congruence).
  assert (E2 : str_eqb (toLowerCase input) (toLowerCase opt) = false)
    by (apply str_eqb_neq; congruence).
  rewrite E1, E2.
  pose proof (cell_edits (toLowerCase opt) (toLowerCase input)
                (List.length (toLowerCase opt))
                (List.length (toLowerCase input))
                (Nat.le_refl _) (Nat.le_refl _)) as H.
  rewrite !firstn_all in H. exact H.
Qed.

(** "Sitting" against "kitten". *)
Lemma measure_counts_an_edit_script_witness :
  exists d,
    fst (measure toLowerCaseBasic
           (new_LexicalDistance toLowerCaseBasic (js "kitten"))
           (js "Sitting")) = Num d /\ 0 <= d /\
    edits (Z.to_nat d) (toLowerCaseBasic (js "Sitting"))
          (toLowerCaseBasic (js "kitten")).
Proof.
  apply (measure_counts_an_edit_script toLowerCaseBasic
           (new_LexicalDistance toLowerCaseBasic (js "kitten"))
           (js "kitten") (js "Sitting")).
  - split; reflexivity.
  - discriminate.
Defined.

Lemma distance_ge_gap (toLowerCase : jsstring -> jsstring)
    (input opt : jsstring) :
  Z.abs (Z.of_nat (List.length (toLowerCase opt))
         - Z.of_nat (List.length (toLowerCase input)))
  <= distance toLowerCase input opt.
Proof.
  unfold distance. destruct (str_eqb input opt) eqn:E1.
  - apply str_eqb_eq in E1. subst. lia.
  - destruct (str_eqb (toLowerCase input) (toLowerCase opt)) eqn:E2.
    + apply str_eqb_eq in E2. rewrite E2. lia.
    + apply cell_ge_gap.
Qed.

(** X2.  The distance [measure] returns is at least the difference between
    the lengths of the two lowercase forms and, when these forms differ,
    at most the longer of the two lengths. *)
Theorem measure_between_length_gap_and_max
    (toLowerCase : jsstring -> jsstring)
    (this : LexicalDistance) (input opt : jsstring) :
  bound_to toLowerCase this input ->
  exists d,
    fst (measure toLowerCase this opt) = Num d /\
    Z.abs (Z.of_nat (List.length (toLowerCase opt))
           - Z.of_nat (List.length (toLowerCase input))) <= d /\
    (toLowerCase opt <> toLowerCase input ->
     d <= Z.of_nat (Nat.max (List.length (toLowerCase opt))
                            (List.length (toLowerCase input)))).
Proof.
  intros Hb. rewrite (measure_value toLowerCase this input opt Hb).
  exists (distance toLowerCase input opt). split; [reflexivity|]. split.
  - apply distance_ge_gap.
  - intros Hne. rewrite Nat.max_comm. apply distance_le_lower.
    + congruence.
    + congruence.
Qed.

Lemma measure_between_length_gap_and_max_witness :
  exists d,
    fst (measure toLowerCaseBasic
           (new_LexicalDistance toLowerCaseBasic (js "id"))
           (js "Identifier")) = Num d /\
    Z.abs (Z.of_nat (List.length (toLowerCaseBasic (js "Identifier")))
           - Z.of_nat (List.length (toLowerCaseBasic (js "id")))) <= d /\
    (toLowerCaseBasic (js "Identifier") <> toLowerCaseBasic (js "id") ->
     d <= Z.of_nat (Nat.max (List.length (toLowerCaseBasic (js "Identifier")))
                            (List.length (toLowerCaseBasic (js "id"))))).
Proof.
  apply (measure_between_length_gap_and_max toLowerCaseBasic
           (new_LexicalDistance toLowerCaseBasic (js "id"))
           (js "id") (js "Identifier")).
  split; reflexivity.
Defined.

(** ** The scratch rows stay dense *)

Lemma aset_length (arr : array) (j : nat) (v : number) :
  List.length (aset arr j v) = Nat.max (List.length arr) (S j).
Proof.
  revert arr; induction j as [|j IH]; intros [|x arr]; simpl;
    rewrite ?IH; simpl; lia.
Qed.

Lemma aset_dense (arr : array) (j : nat) (v : number) :
  (j <= List.length arr)%nat -> is_number v -> dense arr ->
  dense (aset arr j v).
Proof.
  unfold dense. revert arr; induction j as [|j IH]; intros [|x arr] Hj Hv Hd;
    simpl in *.
  - constructor; [assumption | constructor].
  - inversion Hd; subst. constructor; assumption.
  - lia.
  - inversion Hd; subst. constructor; [assumption|].
    apply IH; [lia | assumption | assumption].
Qed.

Lemma row_wr (rs : Rows) (k0 j : nat) (v : number) (k : nat) :
  (k0 < 3)%nat -> (k < 3)%nat ->
  row (wr rs k0 j v) k
  = if (k =? k0)%nat then aset (row rs k0) j v else row rs k.
Proof.
  intros Hk0 Hk. unfold wr, set_row, row.
  destruct k0 as [|[|[|k0]]], k as [|[|[|k]]]; simpl; try lia; reflexivity.
Qed.

(** Writing a number at most one cell past the end of a row keeps the
    rows dense and as long as they were. *)
Lemma wr_ready (n : nat) (rs : Rows) (k0 j : nat) (z : Z) :
  (k0 < 3)%nat -> (j <= List.length (row rs k0))%nat ->
  rows_ready n rs -> rows_ready n (wr rs k0 j (Num z)).
Proof.
  intros Hk0 Hj Hr k Hk. rewrite row_wr by assumption.
  destruct (Nat.eqb_spec k k0) as [->|Hne]; [|apply Hr; assumption].
  destruct (Hr k0 Hk0) as [Hd Hl]. split.
  - apply aset_dense; [assumption | exists z; reflexivity | assumption].
  - rewrite aset_length. lia.
Qed.

Lemma wr_row_length (rs : Rows) (k0 j : nat) (v : number) :
  (k0 < 3)%nat -> (S j <= List.length (row (wr rs k0 j v) k0))%nat.
Proof.
  intros Hk0. rewrite row_wr by assumption. rewrite Nat.eqb_refl.
  rewrite aset_length. lia.
Qed.

Section DenseRows.

Variables a b : jsstring.

(** Where its neighbours are in place, the inner loop body is the write of
    the cell of the recurrence. *)
Lemma measure_cell_wr (i j : nat) (rows : Rows) :
  row_holds a b rows i ->
  (forall i', i = S i' -> row_holds a b rows i') ->
  (S j <= List.length b)%nat ->
  rd rows (S i mod 3) j = Num (cell a b (S i) j) ->
  measure_cell a b (S i) (S j) rows
  = wr rows (S i mod 3) (S j) (Num (cell a b (S i) (S j))).
Proof.
  intros Hup Hdd Hj Hleft.
  pose proof (measure_cell_value a b i j rows Hup Hdd Hj Hleft) as H.
  unfold measure_cell in *. rewrite rd_wr_same in H. rewrite H.
  reflexivity.
Qed.

Lemma measure_row_ready (n : nat) (i : nat) (rows : Rows) :
  rows_hold a b rows i -> rows_ready n rows ->
  rows_ready n (measure_row a b (S i) rows).
Proof.
  intros [Hup Hdd] Hr. unfold measure_row.
  set (cur := (S i mod 3)%nat).
  set (rows0 := wr rows cur 0 (Num (Z.of_nat (S i)))).
  pose (P := fun (k : nat) (s : Rows) =>
    row_holds a b s i /\ (forall i', i = S i' -> row_holds a b s i') /\
    (forall j, (j < k)%nat -> rd s cur j = Num (cell a b (S i) j)) /\
    rows_ready n s /\ (k <= List.length (row s cur))%nat).
  assert (HP : P (1 + List.length b)%nat
                 (for_range 1 (List.length b) (measure_cell a b (S i)) rows0)).
  { apply for_range_ind.
    - repeat split.
      + intros j Hj. unfold rows0, cur.
        rewrite rd_wr_other_row; auto using mod3_lt, mod3_succ.
      + intros i' -> j Hj. unfold rows0, cur.
        rewrite rd_wr_other_row; auto using mod3_lt, mod3_succ2.
        apply Hdd; auto.
      + intros j Hj. assert (j = 0%nat) as -> by lia.
        unfold rows0. rewrite rd_wr_same, cell_0_r. reflexivity.
      + apply (proj1 (wr_ready n rows cur 0 _ (mod3_lt _) (Nat.le_0_l _) Hr
                        k H)).
      + apply (proj2 (wr_ready n rows cur 0 _ (mod3_lt _) (Nat.le_0_l _) Hr
                        k H)).
      + apply (wr_row_length rows cur 0 _ (mod3_lt _)).
    - intros k s [Hk1 Hk2] (Hup' & Hdd' & Hcur & Hr' & Hlen).
      destruct k as [|j]; [lia|].
      rewrite (measure_cell_wr i j s Hup' Hdd');
        [|lia|apply Hcur; lia].
      fold cur. repeat split.
      + intros j' Hj'. unfold cur.
        rewrite rd_wr_other_row; auto using mod3_lt, mod3_succ.
      + intros i' -> j' Hj'. unfold cur.
        rewrite rd_wr_other_row; auto using mod3_lt, mod3_succ2.
        apply (Hdd' i' eq_refl); assumption.
      + intros j' Hj'. destruct (Nat.eq_dec j' (S j)) as [->|Hne].
        * apply rd_wr_same.
        * rewrite rd_wr_other_cell by congruence. apply Hcur; lia.
      + apply (proj1 (wr_ready n s cur (S j) _ (mod3_lt _) Hlen Hr' k H)).
      + apply (proj2 (wr_ready n s cur (S j) _ (mod3_lt _) Hlen Hr' k H)).
      + apply (wr_row_length s cur (S j) _ (mod3_lt _)). }
  destruct HP as (_ & _ & _ & Hready & _). exact Hready.
Qed.

Lemma first_row_ready (n : nat) (rows : Rows) :
  rows_ready n rows ->
  rows_ready n
    (for_range 0 (List.length b + 1)
       (fun j rows => wr rows 0 j (Num (Z.of_nat j))) rows).
Proof.
  intros Hr.
  pose (P := fun (k : nat) (s : Rows) =>
    rows_ready n s /\ (k <= List.length (row s 0))%nat).
  assert (HP : P (0 + (List.length b + 1))%nat
    (for_range 0 (List.length b + 1)
       (fun j rows => wr rows 0 j (Num (Z.of_nat j))) rows)).
  { apply for_range_ind.
    - split; [assumption | lia].
    - intros k s _ [Hs Hlen]. split.
      + apply wr_ready; [lia | assumption | assumption].
      + apply (wr_row_length s 0 k); lia. }
  exact (proj1 HP).
Qed.

Lemma measure_rows_ready (n : nat) (rows : Rows) :
  rows_ready n rows -> rows_ready n (measure_rows a b rows).
Proof.
  intros Hr. unfold measure_rows.
  pose (P := fun (k : nat) (s : Rows) =>
    rows_hold a b s (k - 1) /\ rows_ready n s).
  assert (HP : P (1 + List.length a)%nat
    (for_range 1 (List.length a) (measure_row a b)
       (for_range 0 (List.length b + 1)
          (fun j rows => wr rows 0 j (Num (Z.of_nat j))) rows))).
  { apply for_range_ind.
    - split; [apply first_row_holds | apply first_row_ready; assumption].
    - intros k s Hk [Hs Hrs]. unfold P. destruct k as [|k]; [lia|].
      replace (S (S k) - 1)%nat with (S k) by lia.
      replace (S k - 1)%nat with k in Hs by lia.
      split; [apply measure_row_holds | apply measure_row_ready];
        assumption. }
  exact (proj2 HP).
Qed.

End DenseRows.

Lemma measure_ready (toLowerCase : jsstring -> jsstring) (n : nat)
    (this : LexicalDistance) (opt : jsstring) :
  rows_ready n (_rows this) ->
  rows_ready n (_rows (snd (measure toLowerCase this opt))).
Proof.
  intros Hr. unfold measure.
  destruct (str_eqb (_input this) opt); [assumption|].
  destruct (str_eqb (_inputLowerCase this) (toLowerCase opt));
    [assumption|].
  simpl. apply measure_rows_ready. assumption.
Qed.

Lemma new_ready (toLowerCase : jsstring -> jsstring) (input : jsstring) :
  rows_ready (List.length input + 1)
    (_rows (new_LexicalDistance toLowerCase input)).
Proof.
  intros k Hk.
  assert (H : dense (Array_fill0 (List.length input + 1)) /\
              (List.length input + 1
               <= List.length (Array_fill0 (List.length input + 1)))%nat).
  { unfold Array_fill0. split.
    - apply Forall_forall. intros v Hv. apply repeat_spec in Hv.
      exists 0. assumption.
    - rewrite repeat_length. lia. }
  destruct k as [|[|k]]; exact H.
Qed.

(** X3.  On an engine made by the constructor, after any sequence of
    [measure] calls, each of the three scratch rows is an array without
    holes, holds only numbers (never [NaN] or [undefined]) and is at least
    [input.length + 1] cells long. *)
Theorem scratch_rows_stay_dense (toLowerCase : jsstring -> jsstring)
    (input : jsstring) (earlier : list jsstring) :
  rows_ready (List.length input + 1)
    (_rows (snd (measure_all toLowerCase
                   (new_LexicalDistance toLowerCase input) earlier))).
Proof.
  generalize (new_ready toLowerCase input).
  generalize (new_LexicalDistance toLowerCase input) as this.
  induction earlier as [|o rest IH]; intros this Hr; simpl.
  - assumption.
  - pose proof (measure_ready toLowerCase _ this o Hr) as Hr'.
    destruct (measure toLowerCase this o) as [d this'].
    specialize (IH this' Hr').
    destruct (measure_all toLowerCase this' rest) as [ds this''].
    exact IH.
Qed.

(** * Further properties of the ranking function *)

(** The test of line 18 in integers. *)
Lemma threshold_int (input o : jsstring) (d : Z) :
  (inject_Z d <= threshold input o)%Q
  <-> 2 * d <= Z.max (Z.max (Z.of_nat (List.length input))
                            (Z.of_nat (List.length o))) 2.
Proof.
  unfold threshold, Math_max3. rewrite !Q.max_le_iff.
  unfold half, Qle, inject_Z. cbn [Qnum Qden]. lia.
Qed.

(** Two lists sorted by an antisymmetric relation that hold the same
    elements are the same list. *)
Lemma sorted_perm_unique (R : jsstring -> jsstring -> Prop)
    (l1 l2 : list jsstring) :
  (forall x y, R x y -> R y x -> x = y) ->
  StronglySorted R l1 -> StronglySorted R l2 -> Permutation l1 l2 ->
  l1 = l2.
Proof.
  intros Hanti. revert l2.
  induction l1 as [|x t1 IH]; intros l2 Hs1 Hs2 Hp.
  - apply Permutation_nil in Hp. congruence.
  - destruct l2 as [|y t2].
    + apply Permutation_sym, Permutation_nil in Hp. discriminate.
    + apply StronglySorted_inv in Hs1. destruct Hs1 as [Hs1 Hx].
      apply StronglySorted_inv in Hs2. destruct Hs2 as [Hs2 Hy].
      rewrite Forall_forall in Hx, Hy.
      assert (Exy : x = y).
      { assert (Hxin : In x (y :: t2))
          by (apply (Permutation_in x Hp); left; reflexivity).
        assert (Hyin : In y (x :: t1))
          by (apply (Permutation_in y (Permutation_sym Hp));
              left; reflexivity).
        destruct Hxin as [E|Hxin]; [congruence|].
        destruct Hyin as [E|Hyin]; [congruence|].
        apply Hanti; auto. }
      subst y. f_equal. apply IH; try assumption.
      apply Permutation_cons_inv with x. exact Hp.
Qed.

Section RankingFacts.

Variable toLowerCase : jsstring -> jsstring.
Variable localeCompare : jsstring -> jsstring -> Z.

Lemma suggestionList_NoDup (input : jsstring) (options : list jsstring) :
  NoDup (suggestionList toLowerCase localeCompare input options).
Proof.
  apply (Permutation_NoDup
           (Permutation_sym
              (suggestionList_perm toLowerCase localeCompare input options))).
  apply record_fold_NoDup. constructor.
Qed.

Lemma suggestionList_single (input o : jsstring) :
  suggestionList toLowerCase localeCompare input [o]
  = if passes toLowerCase input o then [o] else [].
Proof.
  unfold suggestionList. rewrite suggest_loop_eq.
  cbn [fst fold_left]. unfold record_step.
  destruct (passes toLowerCase input o); [|reflexivity].
  unfold Object_keys. simpl.
  destruct (is_array_index o); reflexivity.
Qed.

Lemma ranked_before_antisym (input : jsstring) :
  (forall x y, localeCompare x y <= 0 -> localeCompare y x <= 0 -> x = y) ->
  forall x y,
    ranked_before toLowerCase localeCompare input x y ->
    ranked_before toLowerCase localeCompare input y x -> x = y.
Proof.
  intros Hanti x y (dx & dy & Hx & Hy & Hxy) (dy' & dx' & Hy' & Hx' & Hyx).
  rewrite Hx in Hx'. rewrite Hy in Hy'.
  injection Hx' as <-. injection Hy' as <-.
  apply Hanti; lia.
Qed.

(** When [localeCompare] is a total order, the result is determined by
    the strings it holds. *)
Lemma suggestionList_determined (input : jsstring)
    (options options' : list jsstring) :
  (forall x y, localeCompare x y <= 0 \/ localeCompare y x <= 0) ->
  (forall x y z, localeCompare x y <= 0 -> localeCompare y z <= 0 ->
                 localeCompare x z <= 0) ->
  (forall x y, localeCompare x y <= 0 -> localeCompare y x <= 0 -> x = y) ->
  (forall o, In o (suggestionList toLowerCase localeCompare input options)
             <-> In o (suggestionList toLowerCase localeCompare input
                         options')) ->
  suggestionList toLowerCase localeCompare input options
  = suggestionList toLowerCase localeCompare input options'.
Proof.
  intros Htotal Htrans Hanti Hsame.
  apply (sorted_perm_unique
           (ranked_before toLowerCase localeCompare input)).
  - apply ranked_before_antisym. assumption.
  - apply rank_sorted; assumption.
  - apply rank_sorted; assumption.
  - apply NoDup_Permutation; auto using suggestionList_NoDup.
Qed.

(** X4.  Each candidate is judged on its own: a string is suggested from a
    list of candidates exactly when it is in the list and would be
    suggested as the only candidate. *)
Theorem suggestionList_candidatewise
    (input : jsstring) (options : list jsstring) (o : jsstring) :
  In o (suggestionList toLowerCase localeCompare input options)
  <-> In o options /\
      suggestionList toLowerCase localeCompare input [o] = [o].
Proof.
  rewrite suggestionList_In, suggestionList_single.
  destruct (passes toLowerCase input o); split; intros [H1 H2];
    split; auto; discriminate.
Qed.

(** X5.  The result depends on the set of the candidates only, not on their
    order or repetition: two lists holding the same candidates yield
    suggestions that are rearrangements of one another and, when
    [localeCompare] is a total order, the same list. *)
Theorem suggestionList_order_independent
    (input : jsstring) (options options' : list jsstring) :
  (forall o, In o options <-> In o options') ->
  Permutation (suggestionList toLowerCase localeCompare input options)
              (suggestionList toLowerCase localeCompare input options')
  /\
  ((forall x y, localeCompare x y <= 0 \/ localeCompare y x <= 0) ->
   (forall x y z, localeCompare x y <= 0 -> localeCompare y z <= 0 ->
                  localeCompare x z <= 0) ->
   (forall x y, localeCompare x y <= 0 -> localeCompare y x <= 0 -> x = y) ->
   suggestionList toLowerCase localeCompare input options
   = suggestionList toLowerCase localeCompare input options').
Proof.
  intros Hsame.
  assert (Hin : forall o,
             In o (suggestionList toLowerCase localeCompare input options)
             <-> In o (suggestionList toLowerCase localeCompare input
                         options')).
  { intros o. rewrite !suggestionList_In, Hsame. reflexivity. }
  split.
  - apply NoDup_Permutation; auto using suggestionList_NoDup.
  - intros Htotal Htrans Hanti.
    apply suggestionList_determined; assumption.
Qed.

(** X6.  Ranking the suggestions again changes nothing, when
    [localeCompare] is a total order. *)
Theorem suggestionList_idempotent
    (input : jsstring) (options : list jsstring) :
  (forall x y, localeCompare x y <= 0 \/ localeCompare y x <= 0) ->
  (forall x y z, localeCompare x y <= 0 -> localeCompare y z <= 0 ->
                 localeCompare x z <= 0) ->
  (forall x y, localeCompare x y <= 0 -> localeCompare y x <= 0 -> x = y) ->
  suggestionList toLowerCase localeCompare input
    (suggestionList toLowerCase localeCompare input options)
  = suggestionList toLowerCase localeCompare input options.
Proof.
  intros Htotal Htrans Hanti.
  apply suggestionList_determined; try assumption.
  intros o. rewrite (suggestionList_In _ _ input (suggestionList _ _ _ _)).
  rewrite suggestionList_In. tauto.
Qed.

(** X7.  The input itself and every case variant of it (a string with the
    same lowercase form) is suggested whenever it is among the
    candidates, whatever the lengths. *)
Theorem suggestionList_keeps_case_variants
    (input : jsstring) (options : list jsstring) (o : jsstring) :
  In o options ->
  toLowerCase o = toLowerCase input ->
  In o (suggestionList toLowerCase localeCompare input options).
Proof.
  intros Hin Hl. apply suggestionList_In. split; [assumption|].
  apply passes_iff, threshold_int. unfold distance.
  destruct (str_eqb input o); [lia|].
  rewrite Hl, str_eqb_refl. lia.
Qed.

(** X8.  No suggestion is too far from the input in length: twice the
    difference between the lengths of the two lowercase forms is at most
    the larger of [input.length], the length of the suggestion and 2. *)
Theorem suggestionList_length_gap
    (input : jsstring) (options : list jsstring) (o : jsstring) :
  In o (suggestionList toLowerCase localeCompare input options) ->
  2 * Z.abs (Z.of_nat (List.length (toLowerCase o))
             - Z.of_nat (List.length (toLowerCase input)))
  <= Z.max (Z.max (Z.of_nat (List.length input))
                  (Z.of_nat (List.length o))) 2.
Proof.
  intros Hin. apply suggestionList_In in Hin. destruct Hin as [_ Hp].
  apply passes_iff, threshold_int in Hp.
  pose proof (distance_ge_gap toLowerCase input o) as Hgap. lia.
Qed.

(** X9.  For the empty input, when lower-casing keeps the empty string
    empty and the length of every candidate, the suggestions are exactly
    the candidates of at most one code unit. *)
Theorem suggestionList_empty_input
    (options : list jsstring) (o : jsstring) :
  toLowerCase [] = [] ->
  (forall c, In c options ->
     List.length (toLowerCase c) = List.length c) ->
  (In o (suggestionList toLowerCase localeCompare [] options)
   <-> In o options /\ (List.length o <= 1)%nat).
Proof.
  intros Hnil Hlen. rewrite suggestionList_In.
  split; intros [Hin H]; (split; [assumption|]).
  - apply passes_iff, threshold_int in H. revert H.
    unfold distance. rewrite Hnil.
    destruct o as [|c o]; [simpl; lia|].
    cbn [str_eqb]. specialize (Hlen _ Hin).
    destruct (toLowerCase (c :: o)) as [|c' o'] eqn:E;
      [simpl in Hlen; discriminate|].
    cbn [str_eqb]. rewrite cell_0_r, Hlen. simpl List.length. lia.
  - apply passes_iff, threshold_int.
    unfold distance. rewrite Hnil.
    destruct o as [|c o]; [simpl; lia|].
    cbn [str_eqb]. specialize (Hlen _ Hin).
    destruct (toLowerCase (c :: o)) as [|c' o'] eqn:E;
      [simpl in Hlen; discriminate|].
    cbn [str_eqb]. rewrite cell_0_r, Hlen. simpl List.length in *. lia.
Qed.

End RankingFacts.

Lemma compareUnits_antisym (s t : jsstring) :
  compareUnits s t <= 0 -> compareUnits t s <= 0 -> s = t.
Proof.
  unfold compareUnits.
  rewrite (list_compare_antisym N.compare N.compare_eq_iff s t)
    by (intros x y; apply N.compare_antisym).
  destruct (list_compare N.compare s t) eqn:E; simpl; try lia.
  intros _ _. apply (list_compare_refl N.compare N.compare_eq_iff). exact E.
Qed.

(** X5 at the input "cat": "cap", "bat" against "bat", "cap", "bat". *)
Lemma suggestionList_order_independent_witness :
  Permutation
    (suggestionList toLowerCaseBasic compareUnits (js "cat")
       [js "cap"; js "bat"])
    (suggestionList toLowerCaseBasic compareUnits (js "cat")
       [js "bat"; js "cap"; js "bat"])
  /\
  suggestionList toLowerCaseBasic compareUnits (js "cat")
    [js "cap"; js "bat"]
  = suggestionList toLowerCaseBasic compareUnits (js "cat")
      [js "bat"; js "cap"; js "bat"].
Proof.
  destruct (suggestionList_order_independent toLowerCaseBasic compareUnits
              (js "cat") [js "cap"; js "bat"]
              [js "bat"; js "cap"; js "bat"]) as [Hperm Heq].
  - intros o. simpl. tauto.
  - split; [exact Hperm|].
    apply Heq;
      [exact compareUnits_total | exact compareUnits_trans
       | exact compareUnits_antisym].
Defined.

(** X6 at the input "color". *)
Lemma suggestionList_idempotent_witness :
  suggestionList toLowerCaseBasic compareUnits (js "color")
    (suggestionList toLowerCaseBasic compareUnits (js "color")
       [js "colour"; js "xxxxxxxx"; js "color"])
  = suggestionList toLowerCaseBasic compareUnits (js "color")
      [js "colour"; js "xxxxxxxx"; js "color"].
Proof.
  apply (suggestionList_idempotent toLowerCaseBasic compareUnits
           (js "color") [js "colour"; js "xxxxxxxx"; js "color"]
           compareUnits_total compareUnits_trans compareUnits_antisym).
Defined.

(** X7: "id" is suggested for "ID". *)
Lemma suggestionList_keeps_case_variants_witness :
  In (js "id")
     (suggestionList toLowerCaseBasic compareUnits (js "ID")
        [js "identity"; js "id"]).
Proof.
  apply (suggestionList_keeps_case_variants toLowerCaseBasic compareUnits
           (js "ID") [js "identity"; js "id"] (js "id")).
  - right. left. reflexivity.
  - reflexivity.
Defined.

(** X8: "cap", suggested for "cat". *)
Lemma suggestionList_length_gap_witness :
  2 * Z.abs (Z.of_nat (List.length (toLowerCaseBasic (js "cap")))
             - Z.of_nat (List.length (toLowerCaseBasic (js "cat"))))
  <= Z.max (Z.max (Z.of_nat (List.length (js "cat")))
                  (Z.of_nat (List.length (js "cap")))) 2.
Proof.
  apply (suggestionList_length_gap toLowerCaseBasic compareUnits
           (js "cat") [js "cap"] (js "cap")).
  vm_compute. left. reflexivity.
Defined.

(** X9: of "a", "ab" and the empty string, "ab" alone is not suggested
    for the empty input. *)
Lemma suggestionList_empty_input_witness :
  In (js "a")
     (suggestionList toLowerCaseBasic compareUnits []
        [js "a"; js "ab"; []])
  <-> In (js "a") [js "a"; js "ab"; []]
      /\ (List.length (js "a") <= 1)%nat.
Proof.
  apply (suggestionList_empty_input toLowerCaseBasic compareUnits
           [js "a"; js "ab"; []] (js "a")).
  - reflexivity.
  - intros c [<-|[<-|[<-|[]]]]; reflexivity.
Defined.

(** * One edit away *)

Section Steps.

Variables a b : jsstring.

Lemma cell_step_diag (i j : nat) :
  cell a b (S i) (S j) <= cell a b i j + cost a b (S i) (S j).
Proof.
  rewrite cell_S_S. cbv zeta.
  destruct (transposed a b (S i) (S j)); lia.
Qed.

Lemma cell_step_up (i j : nat) : cell a b (S i) j <= cell a b i j + 1.
Proof.
  destruct j as [|j].
  - rewrite !cell_0_r. lia.
  - rewrite cell_S_S. cbv zeta.
    destruct (transposed a b (S i) (S j)); lia.
Qed.

Lemma cell_step_left (i j : nat) : cell a b i (S j) <= cell a b i j + 1.
Proof.
  destruct i as [|i].
  - rewrite !cell_0_l. lia.
  - rewrite cell_S_S. cbv zeta.
    destruct (transposed a b (S i) (S j)); lia.
Qed.

Lemma cell_step_swap (i j : nat) :
  charAt a (S i) = charAt b j -> charAt a i = charAt b (S j) ->
  cell a b (S (S i)) (S (S j)) <= cell a b i j + 1.
Proof.
  intros H1 H2. rewrite cell_S_S. cbv zeta.
  assert (Ht : transposed a b (S (S i)) (S (S j)) = true).
  { unfold transposed.
    replace (S (S i) - 1)%nat with (S i) by lia.
    replace (S (S i) - 2)%nat with i by lia.
    replace (S (S j) - 1)%nat with (S j) by lia.
    replace (S (S j) - 2)%nat with j by lia.
    rewrite H1, H2.
    rewrite (proj2 (unit_eqb_eq _ _) eq_refl).
    rewrite (proj2 (unit_eqb_eq _ _) eq_refl). reflexivity. }
  rewrite Ht.
  replace (S i - 1)%nat with i by lia. replace (S j - 1)%nat with j by lia.
  lia.
Qed.

(** Along a run of equal units the diagonal does not grow. *)
Lemma cell_diag_run (k i j : nat) :
  (forall t, (t < k)%nat -> charAt a (i + t) = charAt b (j + t)) ->
  cell a b (i + k) (j + k) <= cell a b i j.
Proof.
  induction k as [|k IH]; intros Hrun.
  - rewrite !Nat.add_0_r. lia.
  - replace (i + S k)%nat with (S (i + k)) by lia.
    replace (j + S k)%nat with (S (j + k)) by lia.
    pose proof (cell_step_diag (i + k) (j + k)) as Hd.
    unfold cost in Hd.
    replace (S (i + k) - 1)%nat with (i + k)%nat in Hd by lia.
    replace (S (j + k) - 1)%nat with (j + k)%nat in Hd by lia.
    rewrite (proj2 (unit_eqb_eq _ _) (Hrun k (Nat.lt_succ_diag_r k))) in Hd.
    assert (cell a b (i + k) (j + k) <= cell a b i j)
      by (apply IH; intros t Ht; apply Hrun; lia).
    lia.
Qed.

End Steps.

Lemma charAt_app_l (p s : jsstring) (t : nat) :
  (t < List.length p)%nat -> charAt (p ++ s) t = charAt p t.
Proof. intros H. unfold charAt. apply nth_error_app1. exact H. Qed.

Lemma charAt_app_r (p s : jsstring) (t : nat) :
  charAt (p ++ s) (List.length p + t) = charAt s t.
Proof.
  unfold charAt. rewrite nth_error_app2 by lia. f_equal. lia.
Qed.

Lemma charAt_app_0 (p s : jsstring) :
  charAt (p ++ s) (List.length p) = charAt s 0.
Proof.
  rewrite <- (charAt_app_r p s 0). f_equal. lia.
Qed.

Lemma charAt_app_1 (p s : jsstring) :
  charAt (p ++ s) (S (List.length p)) = charAt s 1.
Proof.
  rewrite <- (charAt_app_r p s 1). f_equal. lia.
Qed.

(** The last cell of the matrix of two strings one edit apart is at
    most 1. *)
Lemma edit_cell_le_1 (a b : jsstring) :
  edit a b -> cell a b (List.length a) (List.length b) <= 1.
Proof.
  intros H.
  assert (Hprefix : forall p x y,
    cell (p ++ x) (p ++ y) (List.length p) (List.length p) <= 0).
  { intros p x y.
    pose proof (cell_diag_run (p ++ x) (p ++ y) (List.length p) 0 0) as Hd.
    cbn [Nat.add] in Hd. rewrite cell_0_l in Hd. apply Hd.
    intros t Ht. rewrite !charAt_app_l by assumption. reflexivity. }
  destruct H as [p c s|p c s|p c c' s|p c c' s];
    rewrite !length_app; simpl List.length.
  - (* insertion *)
    pose proof (Hprefix p s (c :: s)) as H0.
    pose proof (cell_step_left (p ++ s) (p ++ c :: s)
                  (List.length p) (List.length p)) as H1.
    pose proof (cell_diag_run (p ++ s) (p ++ c :: s) (List.length s)
                  (List.length p) (S (List.length p))) as H2.
    replace (List.length p + S (List.length s))%nat
      with (S (List.length p) + List.length s)%nat by lia.
    assert (Hrun : forall t, (t < List.length s)%nat ->
      charAt (p ++ s) (List.length p + t)
      = charAt (p ++ c :: s) (S (List.length p) + t)).
    { intros t _. rewrite charAt_app_r.
      replace (S (List.length p) + t)%nat
        with (List.length p + S t)%nat by lia.
      rewrite charAt_app_r. reflexivity. }
    specialize (H2 Hrun). lia.
  - (* deletion *)
    pose proof (Hprefix p (c :: s) s) as H0.
    pose proof (cell_step_up (p ++ c :: s) (p ++ s)
                  (List.length p) (List.length p)) as H1.
    pose proof (cell_diag_run (p ++ c :: s) (p ++ s) (List.length s)
                  (S (List.length p)) (List.length p)) as H2.
    replace (List.length p + S (List.length s))%nat
      with (S (List.length p) + List.length s)%nat by lia.
    assert (Hrun : forall t, (t < List.length s)%nat ->
      charAt (p ++ c :: s) (S (List.length p) + t)
      = charAt (p ++ s) (List.length p + t)).
    { intros t _. rewrite charAt_app_r.
      replace (S (List.length p) + t)%nat
        with (List.length p + S t)%nat by lia.
      rewrite charAt_app_r. reflexivity. }
    specialize (H2 Hrun). lia.
  - (* substitution *)
    pose proof (Hprefix p (c :: s) (c' :: s)) as H0.
    pose proof (cell_step_diag (p ++ c :: s) (p ++ c' :: s)
                  (List.length p) (List.length p)) as H1.
    pose proof (cost_range (p ++ c :: s) (p ++ c' :: s)
                  (S (List.length p)) (S (List.length p))) as Hc.
    pose proof (cell_diag_run (p ++ c :: s) (p ++ c' :: s) (List.length s)
                  (S (List.length p)) (S (List.length p))) as H2.
    replace (List.length p + S (List.length s))%nat
      with (S (List.length p) + List.length s)%nat by lia.
    assert (Hrun : forall t, (t < List.length s)%nat ->
      charAt (p ++ c :: s) (S (List.length p) + t)
      = charAt (p ++ c' :: s) (S (List.length p) + t)).
    { intros t _.
      replace (S (List.length p) + t)%nat
        with (List.length p + S t)%nat by lia.
      rewrite !charAt_app_r. reflexivity. }
    specialize (H2 Hrun). lia.
  - (* swap *)
    pose proof (Hprefix p (c :: c' :: s) (c' :: c :: s)) as H0.
    pose proof (cell_step_swap (p ++ c :: c' :: s) (p ++ c' :: c :: s)
                  (List.length p) (List.length p)) as H1.
    pose proof (cell_diag_run (p ++ c :: c' :: s) (p ++ c' :: c :: s)
                  (List.length s)
                  (S (S (List.length p))) (S (S (List.length p)))) as H2.
    replace (List.length p + S (S (List.length s)))%nat
      with (S (S (List.length p)) + List.length s)%nat by lia.
    assert (Hrun : forall t, (t < List.length s)%nat ->
      charAt (p ++ c :: c' :: s) (S (S (List.length p)) + t)
      = charAt (p ++ c' :: c :: s) (S (S (List.length p)) + t)).
    { intros t _.
      replace (S (S (List.length p)) + t)%nat
        with (List.length p + S (S t))%nat by lia.
      rewrite !charAt_app_r. reflexivity. }
    specialize (H2 Hrun).
    assert (E1 : charAt (p ++ c :: c' :: s) (S (List.length p))
                 = charAt (p ++ c' :: c :: s) (List.length p)).
    { rewrite charAt_app_1, charAt_app_0. reflexivity. }
    assert (E2 : charAt (p ++ c :: c' :: s) (List.length p)
                 = charAt (p ++ c' :: c :: s) (S (List.length p))).
    { rewrite charAt_app_1, charAt_app_0. reflexivity. }
    specialize (H1 E1 E2). lia.
Qed.

Section OneEdit.

Variable toLowerCase : jsstring -> jsstring.

Lemma distance_one_edit (input opt : jsstring) :
  opt <> input ->
  edit (toLowerCase opt) (toLowerCase input) ->
  distance toLowerCase input opt = 1.
Proof.
  intros Hne Hedit. unfold distance.
  assert (E1 : str_eqb input opt = false)
    by (apply str_eqb_neq; congruence).
  rewrite E1.
  destruct (str_eqb (toLowerCase input) (toLowerCase opt)) eqn:E2;
    [reflexivity|].
  pose proof (edit_cell_le_1 _ _ Hedit) as Hle.
  pose proof (cell_nonneg (toLowerCase opt) (toLowerCase input)
                (List.length (toLowerCase opt))
                (List.length (toLowerCase input))) as Hge.
  assert (Hnz : cell (toLowerCase opt) (toLowerCase input)
                  (List.length (toLowerCase opt))
                  (List.length (toLowerCase input)) <> 0).
  { intros H0. apply cell_zero_eq in H0. apply str_eqb_neq in E2.
    congruence. }
  lia.
Qed.

(** X10.  A candidate other than the input whose lowercase form is one
    edit (an insertion, a deletion, a substitution or a swap of two
    adjacent units) away from the lowercase input is at distance
    exactly 1. *)
Theorem measure_one_edit (this : LexicalDistance) (input opt : jsstring) :
  bound_to toLowerCase this input ->
  opt <> input ->
  edit (toLowerCase opt) (toLowerCase input) ->
  fst (measure toLowerCase this opt) = Num 1.
Proof.
  intros Hb Hne Hedit.
  rewrite (measure_value toLowerCase this input opt Hb).
  rewrite distance_one_edit; auto.
Qed.

(** X11.  Such a candidate is suggested whenever it is in the list,
    however short the input. *)
Theorem suggestionList_keeps_one_edit
    (localeCompare : jsstring -> jsstring -> Z)
    (input : jsstring) (options : list jsstring) (o : jsstring) :
  In o options ->
  edit (toLowerCase o) (toLowerCase input) ->
  In o (suggestionList toLowerCase localeCompare input options).
Proof.
  intros Hin Hedit. apply suggestionList_In. split; [assumption|].
  apply passes_iff, threshold_int.
  destruct (list_eq_dec N.eq_dec o input) as [->|Hne].
  - rewrite distance_refl. lia.
  - rewrite distance_one_edit by assumption. lia.
Qed.

(** X12.  Being suggested is mutual: [o] is suggested for the input [s]
    exactly when [s] is suggested for the input [o]. *)
Theorem suggestionList_mutual
    (localeCompare : jsstring -> jsstring -> Z) (s o : jsstring) :
  suggestionList toLowerCase localeCompare s [o] = [o]
  <-> suggestionList toLowerCase localeCompare o [s] = [s].
Proof.
  rewrite !suggestionList_single.
  assert (E : passes toLowerCase s o = passes toLowerCase o s).
  { unfold passes, nleq, threshold, Math_max3.
    rewrite (distance_sym toLowerCase s o).
    apply eq_true_iff_eq. rewrite !Qle_bool_iff, !Q.max_le_iff. tauto. }
  rewrite E. destruct (passes toLowerCase o s); split; intros H;
    (reflexivity || discriminate).
Qed.

End OneEdit.

(** X10: "cta" is "cat" with two units swapped. *)
Lemma measure_one_edit_witness :
  fst (measure toLowerCaseBasic
         (new_LexicalDistance toLowerCaseBasic (js "Cat")) (js "cta"))
  = Num 1.
Proof.
  apply (measure_one_edit toLowerCaseBasic
           (new_LexicalDistance toLowerCaseBasic (js "Cat"))
           (js "Cat") (js "cta")).
  - split; reflexivity.
  - discriminate.
  - apply (edit_swap [99%N] 116%N 97%N []).
Defined.

(** X11: "a" is suggested for "ab". *)
Lemma suggestionList_keeps_one_edit_witness :
  In (js "a")
     (suggestionList toLowerCaseBasic compareUnits (js "ab")
        [js "xyz"; js "a"]).
Proof.
  apply (suggestionList_keeps_one_edit toLowerCaseBasic compareUnits
           (js "ab") [js "xyz"; js "a"] (js "a")).
  - right. left. reflexivity.
  - apply (edit_insert [97%N] 98%N []).
Defined.

(** * No statement raises *)

Lemma rows_at_mod (i : nat) :
  rows_at (Z.rem (Z.of_nat i) 3) = Some (i mod 3)%nat.
Proof.
  assert (E : Z.rem (Z.of_nat i) 3 = Z.of_nat (i mod 3)).
  { rewrite Z.rem_mod_nonneg by lia. rewrite Nat2Z.inj_mod. reflexivity. }
  rewrite E. pose proof (mod3_lt i) as Hlt.
  destruct (i mod 3)%nat as [|[|[|k]]]; try reflexivity. lia.
Qed.

Lemma ref_get_nat (rows : Rows) (k j : nat) :
  ref_get rows (Some k) (Z.of_nat j) = Normal (rd rows k j).
Proof.
  unfold ref_get. destruct (Z.ltb_spec (Z.of_nat j) 0); [lia|].
  rewrite Nat2Z.id. reflexivity.
Qed.

Lemma charAtZ_nat (s : jsstring) (k : nat) :
  charAtZ s (Z.of_nat k) = charAt s k.
Proof.
  unfold charAtZ. destruct (Z.ltb_spec (Z.of_nat k) 0); [lia|].
  rewrite Nat2Z.id. reflexivity.
Qed.

Lemma for_range_c_normal {St : Type} (body_c : nat -> St -> completion St)
    (body : nat -> St -> St) (count lo : nat) (s : St) :
  (forall k s', (lo <= k < lo + count)%nat ->
                body_c k s' = Normal (body k s')) ->
  for_range_c lo count body_c s = Normal (for_range lo count body s).
Proof.
  revert lo s; induction count as [|count IH]; intros lo s Hbody; simpl.
  - reflexivity.
  - rewrite Hbody by lia. simpl. apply IH. intros k s' Hk. apply Hbody. lia.
Qed.

Section NoException.

Variable toLowerCase : jsstring -> jsstring.

(** From row 1 and column 1 on, the references the loops take are rows:
    the loop body raises nothing and does what [measure_cell] does. *)
Lemma checked_measure_cell (a b : jsstring) (i j : nat) (rows : Rows) :
  Checked.measure_cell a b
    (rows_at (Z.rem (Z.of_nat (S i) - 1) 3))
    (rows_at (Z.rem (Z.of_nat (S i)) 3)) (S i) (S j) rows
  = Normal (measure_cell a b (S i) (S j) rows).
Proof.
  unfold Checked.measure_cell, measure_cell.
  replace (Z.of_nat (S i) - 1) with (Z.of_nat i) by lia.
  replace (Z.of_nat (S j) - 1) with (Z.of_nat j) by lia.
  replace (S i - 1)%nat with i by lia. replace (S j - 1)%nat with j by lia.
  rewrite !rows_at_mod, !ref_get_nat, !charAtZ_nat. cbn [bind].
  destruct i as [|i'].
  { (* first row below the top: no transposition *)
    rewrite (proj2 (Z.ltb_ge 1 (Z.of_nat 1))) by lia.
    cbn [andb bind ref_set Nat.ltb Nat.leb]. reflexivity. }
  destruct j as [|j'].
  { (* first column after the border: no transposition *)
    rewrite (proj2 (Z.ltb_ge 1 (Z.of_nat 1))) by lia.
    rewrite andb_false_r.
    replace ((1 <? 1)%nat) with false by reflexivity.
    rewrite andb_false_r.
    cbn [andb bind ref_set]. reflexivity. }
  replace (Z.of_nat (S (S i')) - 2) with (Z.of_nat i') by lia.
  replace (Z.of_nat (S (S j')) - 2) with (Z.of_nat j') by lia.
  replace (S (S i') - 2)%nat with i' by lia.
  replace (S (S j') - 2)%nat with j' by lia.
  rewrite !rows_at_mod, !ref_get_nat, !charAtZ_nat.
  rewrite (proj2 (Z.ltb_lt 1 (Z.of_nat (S (S i'))))) by lia.
  rewrite (proj2 (Z.ltb_lt 1 (Z.of_nat (S (S j'))))) by lia.
  rewrite (proj2 (Nat.ltb_lt 1 (S (S i')))) by lia.
  rewrite (proj2 (Nat.ltb_lt 1 (S (S j')))) by lia.
  cbn [andb].
  destruct (unit_eqb (charAt a (S i')) (charAt b j')
            && unit_eqb (charAt a i') (charAt b (S j')));
    cbn [bind ref_set]; reflexivity.
Qed.

Lemma checked_measure_row (a b : jsstring) (i : nat) (rows : Rows) :
  Checked.measure_row a b (S i) rows
  = Normal (measure_row a b (S i) rows).
Proof.
  unfold Checked.measure_row, measure_row.
  rewrite (rows_at_mod (S i)) at 1. cbn [ref_set bind].
  apply for_range_c_normal. intros k s' Hk.
  destruct k as [|j]; [lia|]. apply checked_measure_cell.
Qed.

Lemma checked_measure_rows (a b : jsstring) (rows : Rows) :
  Checked.measure_rows a b rows = Normal (measure_rows a b rows).
Proof.
  unfold Checked.measure_rows, measure_rows.
  rewrite (for_range_c_normal _
             (fun j rows => wr rows 0 j (Num (Z.of_nat j))))
    by (intros k s' _; reflexivity).
  cbn [bind]. apply for_range_c_normal. intros k s' Hk.
  destruct k as [|i]; [lia|]. apply checked_measure_row.
Qed.

Lemma checked_measure (this : LexicalDistance) (opt : jsstring) :
  Checked.measure toLowerCase this opt
  = Normal (measure toLowerCase this opt).
Proof.
  unfold Checked.measure, measure.
  destruct (str_eqb (_input this) opt); [reflexivity|].
  destruct (str_eqb (_inputLowerCase this) (toLowerCase opt));
    [reflexivity|].
  rewrite checked_measure_rows. cbn [bind].
  rewrite rows_at_mod, ref_get_nat. reflexivity.
Qed.

Lemma checked_suggest_step (input : jsstring)
    (st : object * LexicalDistance) (o : jsstring) :
  Checked.suggest_step toLowerCase input st o
  = Normal (suggest_step toLowerCase input st o).
Proof.
  unfold Checked.suggest_step, suggest_step. destruct st as [obj this].
  rewrite checked_measure. cbn [bind].
  destruct (measure toLowerCase this o) as [d this'].
  destruct (nleq d _); reflexivity.
Qed.

Lemma checked_loop (input : jsstring) (options : list jsstring)
    (st : object * LexicalDistance) :
  for_of_c (Checked.suggest_step toLowerCase input) options st
  = Normal (fold_left (suggest_step toLowerCase input) options st).
Proof.
  revert st; induction options as [|o rest IH]; intros st; simpl.
  - reflexivity.
  - rewrite checked_suggest_step. cbn [bind]. apply IH.
Qed.

End NoException.

(** The exception is within reach of the loop body: run for row 0, where
    [upRow] would be [rows[-1]], it raises at the first cell. *)
Lemma measure_row_0_raises (a b : jsstring) (c : N) (rows : Rows) :
  Checked.measure_row a (c :: b) 0 rows = Throw TypeError.
Proof. reflexivity. Qed.

(** C9.  For every input string and every list of candidates, the empty
    string and the empty list included, the ranking function raises no
    exception and returns a list, the one [suggestionList] describes; for
    the empty input and the one empty candidate this list holds that
    candidate, and for no candidates it is empty. *)
Theorem suggestionList_never_raises
    (toLowerCase : jsstring -> jsstring)
    (localeCompare : jsstring -> jsstring -> Z) :
  (forall input options,
      Checked.suggestionList toLowerCase localeCompare input options
      = Normal (suggestionList toLowerCase localeCompare input options))
  /\ Checked.suggestionList toLowerCase localeCompare [] [[]] = Normal [[]]
  /\ Checked.suggestionList toLowerCase localeCompare (js "abc") []
     = Normal [].
Proof.
  split; [|split; reflexivity].
  intros input options. unfold Checked.suggestionList.
  rewrite checked_loop. reflexivity.
Qed.
